(** * Pax compiler generator: bit math and the partition memory model

    A shallow embedding of [src/math/bit_math.h] and of the memory
    interface declared in [src/include/memory/memory.h].

    Conventions of the embedding.
    - An [uqword] is an integer of [Z] in [0, 2^64); arithmetic on it wraps
      through [to_uqword].  An [udqword] has twice the width, a [ubyte] has
      8 bits, a [qword] is the signed 64-bit integer.
    - The evaluation of a C expression that the language leaves undefined
      (a shift by a count outside [0, 64), a load outside the array) yields
      [Undefined]; a call of [fatalf] yields [Fatal]; everything else
      yields [Ok].
    - The build configuration that [platform.h] supplies is a 64-bit data
      model (LP64, LLP64, ILP64 or SILP64) under a GNU C compiler, the only
      compilers that accept the header ([typeof], [__attribute__]).  The
      target architecture [ARCH] stays a parameter. *)

From Stdlib Require Import ZArith Zpow_facts Lia String.
From Equations Require Import Equations.
From stdpp Require Import base option list gmap.

Local Open Scope Z_scope.

(** ** Platform layer *)

Module Platform.

(** Outcome of running a piece of C code. *)
Record diagnostic : Type := Diagnostic {
  diag_func : string;
  diag_format : string;
  diag_args : list Z
}.

Inductive result (A : Type) : Type :=
| Ok (a : A)
| Undefined
| Fatal (d : diagnostic).
Arguments Ok {A} a.
Arguments Undefined {A}.
Arguments Fatal {A} d.

#[global] Instance result_ret : MRet result := fun A a => Ok a.
#[global] Instance result_bind : MBind result := fun A B f m =>
  match m with
  | Ok a => f a
  | Undefined => Undefined
  | Fatal d => Fatal d
  end.

Definition is_fatal {A} (r : result A) : Prop :=
  match r with Fatal _ => True | _ => False end.

Definition is_ok {A} (r : result A) : Prop :=
  match r with Ok _ => True | _ => False end.

(** Modelled from the spec: [MIN_BITS] and [sizeof(uintmin_t)] of the
    absent [platform.h]; the smallest addressable unit is the 8-bit byte,
    so that a word of a bit array has the native 64 bits. *)
Definition MIN_BITS : Z := 8.
Definition sizeof_uintmin_t : Z := 1.
Definition sizeof_uqword : Z := 8.

(** [bitwidth(uqword)]: [sizeof(Type) * MIN_BITS]. *)
Definition bitwidth_uqword : Z := sizeof_uqword * MIN_BITS.

(** Conversions to the fixed-width integer types. *)
Definition to_ubyte (z : Z) : Z := z mod 2 ^ 8.
Definition to_uqword (z : Z) : Z := z mod 2 ^ 64.
Definition to_udqword (z : Z) : Z := z mod 2 ^ 128.
Definition to_qword (z : Z) : Z := (z + 2 ^ 63) mod 2 ^ 64 - 2 ^ 63.

(** [~x] on an [uqword]. *)
Definition not_uqword (x : Z) : Z := to_uqword (Z.lnot x).

(** [!x]: 1 when [x] is zero, 0 otherwise. *)
Definition lnot_int (x : Z) : Z := if x =? 0 then 1 else 0.

(** [x << n] and [x >> n] on an [uqword]: undefined when the count is
    negative or not less than the width of the promoted left operand. *)
Definition shl (x n : Z) : result Z :=
  if (0 <=? n) && (n <? 64) then Ok (to_uqword (Z.shiftl x n)) else Undefined.

Definition shr (x n : Z) : result Z :=
  if (0 <=? n) && (n <? 64) then Ok (Z.shiftr x n) else Undefined.

(** The same shifts as the 64-bit machines execute them (x86-64, ARM64,
    RISC-V): the count is taken modulo 64, whatever it is. *)
Definition shl_masked (x n : Z) : result Z :=
  Ok (to_uqword (Z.shiftl x (n mod 64))).

Definition shr_masked (x n : Z) : result Z :=
  Ok (Z.shiftr x (n mod 64)).

(** [x >> n] on a [qword]; GNU C shifts a negative value
    arithmetically. *)
Definition sar (x n : Z) : result Z :=
  if (0 <=? n) && (n <? 64) then Ok (Z.shiftr x n) else Undefined.

(** [x - y] and [-x] on a [qword]: signed overflow is undefined. *)
Definition sub_qword (x y : Z) : result Z :=
  if (- 2 ^ 63 <=? x - y) && (x - y <? 2 ^ 63) then Ok (x - y) else Undefined.

Definition neg_qword (x : Z) : result Z := sub_qword 0 x.

(** [x / y] on unsigned operands: undefined for a zero divisor. *)
Definition udiv (x y : Z) : result Z :=
  if y =? 0 then Undefined else Ok (x / y).

(** [array[index]] as an rvalue and as an lvalue. *)
Definition load (array : list Z) (index : Z) : result Z :=
  if index <? 0 then Undefined
  else match array !! Z.to_nat index with
       | Some w => Ok w
       | None => Undefined
       end.

Definition store (array : list Z) (index : Z) (w : Z) : result (list Z) :=
  if (0 <=? index) && (index <? Z.of_nat (length array))
  then Ok (<[Z.to_nat index := w]> array)
  else Undefined.

(** Number of zero bits above the highest set bit among the low [w] bits
    of [x]; [w] when none of them is set. *)
Fixpoint leading_zeros (w : nat) (x : Z) : Z :=
  match w with
  | O => 0
  | S w' => if Z.testbit x (Z.of_nat w') then 0 else 1 + leading_zeros w' x
  end.

(** Number of zero bits below the lowest set bit among bits [i .. i+w-1]
    of [x]; [w] when none of them is set. *)
Fixpoint trailing_zeros (w : nat) (i : Z) (x : Z) : Z :=
  match w with
  | O => 0
  | S w' => if Z.testbit x i then 0 else 1 + trailing_zeros w' (i + 1) x
  end.

(** GCC's [__builtin_clzll]: the number of leading 0-bits of a 64-bit
    operand.  GCC leaves the result for 0 undefined; [sigbits], its only
    caller, passes [x | 1]. *)
Definition builtin_clzll (x : Z) : Z := leading_zeros 64 x.

(** Modelled from the spec: the intrinsics [__x64_lzcnt], [__x86_lzcnt],
    [__x64_tzcnt] and [__x86_tzcnt] of the absent [asm.h].  They are the
    native instructions, total bit counts that return the operand's bit
    width for a zero-valued input. *)
Definition native_lzcnt (x : Z) : Z := leading_zeros 64 x.
Definition native_tzcnt (x : Z) : Z := trailing_zeros 64 0 x.

(** Modelled from the spec: [fatalf] of the absent [state.h].  A contract
    violation is fatal: the process terminates with a diagnostic, and
    nothing after the call runs. *)
Definition fatalf {A : Type} (func format : string) (args : list Z) : result A :=
  Fatal (Diagnostic func format args).

(** A value together with the equation that names it, for the loops
    whose termination depends on the test just made. *)
Definition inspect {A : Type} (a : A) : {b : A | a = b} := exist _ a eq_refl.

(** Target architectures that [bit_math.h] dispatches on. *)
Inductive arch : Type := ARCH_X86_32 | ARCH_X86_64 | ARCH_OTHER.

End Platform.

Import Platform.

(** ** bit_math.h *)

Module BitMath.

(** [sigbits], the branch under [defined(__GNUC__)] for a 64-bit data
    model: [bitwidth(typeof(bit_string)) - __builtin_clzll((bit_string |
    1ull))].  The branches after it are compiled only without GNU C. *)
Definition sigbits (bit_string : Z) : Z :=
  to_uqword (bitwidth_uqword - builtin_clzll (Z.lor bit_string 1)).

(** [log2i]: [sigbits(bit_string) - 1ull]. *)
Definition log2i (bit_string : Z) : Z :=
  to_uqword (sigbits bit_string - 1).

(** The loop shared by the portable branches of [cntlz] and [cnttz]:
    [for (i = i0; i < bitwidth(bit_string) && (loop_condition =
    (bit_string >> i) & 1u); i++) zeroes += loop_condition;]
    The shift is evaluated only when [i < 64]. *)
Equations? count_loop (bit_string i zeroes : Z) : Z
  by wf (Z.to_nat (bitwidth_uqword - i)) lt :=
  count_loop bit_string i zeroes
    with inspect ((i <? bitwidth_uqword) &&
                  negb (to_ubyte (Z.land (Z.shiftr bit_string i) 1) =? 0)) => {
    | exist _ true Hc :=
        count_loop bit_string (to_uqword (i + 1))
          (to_ubyte (zeroes + to_ubyte (Z.land (Z.shiftr bit_string i) 1)));
    | exist _ false _ := zeroes }.
Proof.
  apply andb_prop in Hc as [Hi _]. apply Z.ltb_lt in Hi.
  unfold to_uqword, bitwidth_uqword, sizeof_uqword, MIN_BITS in *.
  pose proof (Z.mod_pos_bound (i + 1) (2 ^ 64) ltac:(lia)) as Hm.
  destruct (Z_lt_le_dec i 0) as [Hneg | Hpos].
  - lia.
  - rewrite Z.mod_small by lia. lia.
Qed.

(** [cntlz]. *)
Definition cntlz (a : arch) (bit_string : Z) : Z :=
  match a with
  | ARCH_X86_32 | ARCH_X86_64 => native_lzcnt bit_string
  | ARCH_OTHER =>
      let zeroes := 0 in
      let bit_string := not_uqword bit_string in
      let zeroes := count_loop bit_string (to_uqword (bitwidth_uqword - 1)) zeroes in
      zeroes
  end.

(** [cnttz]. *)
Definition cnttz (a : arch) (bit_string : Z) : Z :=
  match a with
  | ARCH_X86_32 | ARCH_X86_64 => native_tzcnt bit_string
  | ARCH_OTHER =>
      let zeroes := 0 in
      let bit_string := not_uqword bit_string in
      let zeroes := count_loop bit_string 0 zeroes in
      zeroes
  end.

(** [while (a >= b) { a -= b; }] of [umodq].  [umodq] returns before the
    loop when [b] is zero; the test [0 <? b] records it for the
    termination argument. *)
Equations? umodq_loop (a b : Z) : Z by wf (Z.to_nat a) lt :=
  umodq_loop a b with inspect ((b <=? a) && (0 <? b)) => {
    | exist _ true Hc := umodq_loop (to_uqword (a - b)) b;
    | exist _ false _ := a }.
Proof.
  apply andb_prop in Hc as [Hle Hb].
  apply Z.leb_le in Hle. apply Z.ltb_lt in Hb.
  unfold to_uqword.
  pose proof (Z.mod_le (a - b) (2 ^ 64) ltac:(lia) ltac:(lia)).
  pose proof (Z.mod_pos_bound (a - b) (2 ^ 64) ltac:(lia)).
  lia.
Qed.

Section umodq_on_shifts.

(** The operators [<<] and [>>] on an [uqword], as the C language or as a
    given machine defines them. *)
Variables shift_left shift_right : Z -> Z -> result Z.

(** The macro call [shift(a, (qword) sigbits(a) - (qword) sigbits(b))] of
    [umodq].  [shift(value, a)] is
    [( (!a ? value : (a < 0 ? value >> a : value << a)) )] and its
    argument is substituted without parentheses, so the expression reads
    [!(qword) sigbits(a) - (qword) sigbits(b) ? a
       : ((qword) sigbits(a) - (qword) sigbits(b) < 0
            ? a >> (qword) sigbits(a) - (qword) sigbits(b)
            : a << (qword) sigbits(a) - (qword) sigbits(b))]
    where the unary [!] applies to [(qword) sigbits(a)] alone. *)
Definition umodq_shift_on (a b : Z) : result Z :=
  let sa := to_qword (sigbits a) in
  let sb := to_qword (sigbits b) in
  if negb (to_qword (lnot_int sa - sb) =? 0) then Ok a
  else if to_qword (sa - sb) <? 0 then shift_right a (to_qword (sa - sb))
  else shift_left a (to_qword (sa - sb)).

(** The body of [umodq]. *)
Definition umodq_on (a b : Z) : result Z :=
  if negb (lnot_int b =? 0) then Ok 0 else
  a ← umodq_shift_on a b;
  let a := to_uqword a in
  a2 ← shift_right a (to_uqword (log2i b + 1));
  p ← shift_left 1 (to_uqword (log2i b + 1));
  let b2 := to_uqword (to_udqword (to_udqword p - to_udqword b)) in
  q ← shift_left 1 (to_uqword (log2i b + 1));
  let a := to_uqword (Z.land (to_udqword a) (to_udqword (to_uqword (q - 1)))) in
  let a := to_uqword (a + to_uqword (b2 * a2)) in
  Ok (umodq_loop a b).

End umodq_on_shifts.

(** [umodq], with the shifts of the C language. *)
Definition umodq (a b : Z) : result Z := umodq_on shl shr a b.

(** [umodq] as compiled for a machine that takes the shift count modulo
    64. *)
Definition umodq_masked (a b : Z) : result Z :=
  umodq_on shl_masked shr_masked a b.

(** [in_range]: [(min <= value) & (value <= max)]. *)
Definition in_range (min max value : Z) : bool :=
  (min <=? value) && (value <=? max).

(** [in_buffer]: [(min <= value) & (value < max)]. *)
Definition in_buffer (min max value : Z) : bool :=
  (min <=? value) && (value <? max).

(** [bin_index]. *)
Definition bin_index (address : Z) : result Z :=
  let side := Z.land address 1 in
  address ← shr address 1;
  if negb (lnot_int address =? 0) then Ok side else
  let address_bits := log2i address in
  if address =? 1 then Ok side else
  p2 ← shl 2 address_bits;
  p1 ← shl 1 address_bits;
  Ok (to_uqword (to_uqword (to_uqword (p2 - 2) + address) - to_uqword (side * p1))).

(** [sizeof(uqword) * sizeof(uintmin_t) * MIN_BITS], the number of bits of
    one word of a bit array. *)
Definition word_bits : Z :=
  to_uqword (to_uqword (sizeof_uqword * sizeof_uintmin_t) * MIN_BITS).

(** [get_bita]. *)
Definition get_bita (bitarray : list Z) (words bit_index : Z) : result Z :=
  let bits := word_bits in
  let index := bit_index / bits in
  _ ← (if negb (in_buffer 0 words index)
       then fatalf "get_bita" "index out of range: 0 <= index=%u < %u" [index; words]
       else Ok tt);
  word ← load bitarray index;
  shifted ← shr word (bit_index mod bits);
  let bit := Z.land shifted (to_uqword 1) in
  Ok bit.

(** [set_bita]; the array after the call is the result. *)
Definition set_bita (bitarray : list Z) (words bit_offset value : Z)
  : result (list Z) :=
  let bits := word_bits in
  let index := bit_offset / bits in
  _ ← (if negb (in_buffer 0 words index)
       then fatalf "set_bita" "index out of range: 0 <= index=%u < %u" [index; words]
       else Ok tt);
  word ← load bitarray index;
  v ← shl (Z.land value (to_uqword 1)) (bit_offset mod bits);
  m ← shl (to_uqword 1) (bit_offset mod bits);
  let word := Z.lxor word (Z.land (Z.lxor word v) m) in
  store bitarray index word.

(** The macro call [shift(((1ull << bits) - 1), offset)] of [mask]:
    [(!offset ? v : (offset < 0 ? v >> offset : v << offset))] with
    [v = ((1ull << bits) - 1)], evaluated in the branch that is taken. *)
Definition mask (bits offset : Z) : result Z :=
  if negb (lnot_int offset =? 0) then
    p ← shl 1 bits; Ok (to_uqword (p - 1))
  else if offset <? 0 then
    p ← shl 1 bits; shr (to_uqword (p - 1)) offset
  else
    p ← shl 1 bits; shl (to_uqword (p - 1)) offset.

(** [filter]: [value & mask(bits, offset)]. *)
Definition filter (value bits offset : Z) : result Z :=
  m ← mask bits offset; Ok (Z.land value m).

(** [digits]: [(uqword) ((((udqword) sigbits(x)) * numerator) /
    denominator + 1)] with the ratio 10000 / 33219. *)
Definition digits (bit_string : Z) : Z :=
  let numerator := 10000 in
  let denominator := 33219 in
  let x := to_udqword bit_string in
  to_uqword (to_udqword (to_udqword (to_udqword (sigbits (to_uqword x)) * numerator)
                         / denominator + 1)).

(** [zero_high_bits]; the x86 branches call [__x64_bzhiq] and
    [__x86_bzhil] of the absent [asm.h], taken as the parameter [bzhi].
    The portable branch is [index = 64 - index; return (src << index) >>
    index;]. *)
Definition zero_high_bits (bzhi : Z -> Z -> Z -> result Z) (a : arch)
    (src index : Z) : result Z :=
  match a with
  | ARCH_X86_32 | ARCH_X86_64 => bzhi src src index
  | ARCH_OTHER =>
      let index := to_uqword (64 - index) in
      shifted ← shl src index;
      shr shifted index
  end.

(** [ones]; the x86 branches call [__x64_popcnt] and [__x86_popcnt] of
    the absent [asm.h], taken as the parameter [popcnt].  The portable
    branch is, statement for statement, the one of [cnttz]. *)
Definition ones (popcnt : Z -> Z) (a : arch) (bit_string : Z) : Z :=
  match a with
  | ARCH_X86_32 | ARCH_X86_64 => popcnt bit_string
  | ARCH_OTHER =>
      let zeroes := 0 in
      let bit_string := not_uqword bit_string in
      let zeroes := count_loop bit_string 0 zeroes in
      zeroes
  end.

(** [square_wave]: [a = (qword) umodq(time, period);
    a -= ((qword) (period - 1ull) >> 1ull);
    return ((uqword) (sign(a) >= 0)) << 31ull;]
    where [sign(a)] is [( (a) > 0 ? 1 : -1 )]. *)
Definition square_wave (period time : Z) : result Z :=
  r ← umodq time period;
  let a := to_qword r in
  half ← sar (to_qword (to_uqword (period - 1))) 1;
  a ← sub_qword a half;
  let sign := if 0 <? a then 1 else -1 in
  shl (to_uqword (if 0 <=? sign then 1 else 0)) 31.

(** [lerp]: [lower_bound + x * (upper_bound - lower_bound)]. *)
Definition lerp (lower_bound upper_bound x : Z) : Z :=
  to_uqword (lower_bound + to_uqword (x * to_uqword (upper_bound - lower_bound))).

(** [sigbitss]: [sigbits((uqword) bit_string)]. *)
Definition sigbitss (bit_string : Z) : Z := sigbits (to_uqword bit_string).

(** The loop of [sigbitsn]:
    [for (qword i = (qword) (words - 1u); i >= 0u; i--)
       result += sigbits(bit_string[i]);]
    The comparison is made in [qword], which holds every [unsigned]. *)
Equations? sigbitsn_loop (bit_string : list Z) (i acc : Z) : result Z
  by wf (Z.to_nat (i + 1)) lt :=
  sigbitsn_loop bit_string i acc with inspect (0 <=? i) => {
    | exist _ true Hc with load bit_string i => {
        | Ok w := sigbitsn_loop bit_string (i - 1) (to_uqword (acc + sigbits w));
        | Undefined := Undefined;
        | Fatal d := Fatal d };
    | exist _ false _ := Ok acc }.
Proof. apply Z.leb_le in Hc. lia. Qed.

(** [sigbitsn]. *)
Definition sigbitsn (bit_string : list Z) (words : Z) : result Z :=
  let result := 0 in
  sigbitsn_loop bit_string (to_qword (to_uqword (words - 1))) result.

(** [pow2i]: [1ull << exponent]. *)
Definition pow2i (exponent : Z) : result Z := shl 1 exponent.

(** [pow2si]: [pow2i(abs(exponent))] where [abs(value)] is
    [( (value) > 0 ? (value) : -(value) )]. *)
Definition pow2si (exponent : Z) : result Z :=
  if 0 <? exponent then pow2i (to_uqword exponent)
  else n ← neg_qword exponent; pow2i (to_uqword n).

(** The table [pow10] of [pow10i]. *)
Definition pow10 : list Z :=
  [ 1; 10; 100; 1000; 10000; 100000; 1000000; 10000000; 100000000;
    1000000000; 10000000000; 100000000000; 1000000000000;
    10000000000000; 100000000000000; 1000000000000000;
    10000000000000000; 100000000000000000; 1000000000000000000;
    10000000000000000000 ].

(** [pow10i]: [pow10[exponent]]. *)
Definition pow10i (exponent : Z) : result Z := load pow10 exponent.

(** The loop of [powni]:
    [while (exponent) { if (exponent & 1u) result *= base;
                        exponent >>= 1u; base *= base; }].
    An [uqword] is nonzero exactly when it is positive. *)
Equations? powni_loop (base exponent acc : Z) : Z
  by wf (Z.to_nat exponent) lt :=
  powni_loop base exponent acc with inspect (0 <? exponent) => {
    | exist _ true Hc :=
        powni_loop (to_uqword (base * base)) (Z.shiftr exponent 1)
          (if negb (Z.land exponent 1 =? 0) then to_uqword (acc * base) else acc);
    | exist _ false _ := acc }.
Proof.
  apply Z.ltb_lt in Hc. rewrite Z.shiftr_div_pow2 by lia.
  change (2 ^ 1) with 2.
  assert (exponent / 2 < exponent) by (apply Z.div_lt; lia).
  pose proof (Z.div_pos exponent 2 ltac:(lia) ltac:(lia)). lia.
Qed.

(** [powni]. *)
Definition powni (base exponent : Z) : Z :=
  let result := 1 in
  powni_loop base exponent result.

(** [log10i]: [(uqword) ((((udqword) sigbits(x)) * numerator) /
    denominator)] with the ratio 10000 / 33219. *)
Definition log10i (bit_string : Z) : Z :=
  let numerator := 10000 in
  let denominator := 33219 in
  let x := to_udqword bit_string in
  to_uqword (to_udqword (to_udqword (sigbits (to_uqword x)) * numerator)
             / denominator).

(** [logni]: [log10i(bit_string) / log10i(base)]. *)
Definition logni (base bit_string : Z) : result Z :=
  udiv (log10i bit_string) (log10i base).

(** [lni]: [(uqword) (((sigbits(x)) * numerator) / denominator)] with the
    ratio 10000000000000000 / 14426950408889634. *)
Definition lni (bit_string : Z) : Z :=
  let numerator := 10000000000000000 in
  let denominator := 14426950408889634 in
  let x := to_udqword bit_string in
  to_uqword (to_udqword (sigbits (to_uqword x) * numerator) / denominator).

(** [get_digit2i]: [(value >> digit) & 1]. *)
Definition get_digit2i (value digit : Z) : result Z :=
  shifted ← shr value digit; Ok (Z.land shifted 1).

(** [get_digit10i]: [value /= pow10i(digit); return value % 10ull;]. *)
Definition get_digit10i (value digit : Z) : result Z :=
  p ← pow10i digit;
  value ← udiv value p;
  Ok (value mod 10).

(** [dbl]: [value << 1u]; [hlv]: [value >> 1u]. *)
Definition dbl (value : Z) : result Z := shl value 1.
Definition hlv (value : Z) : result Z := shr value 1.

(** [get_bit]: [(bit_string >> bit) & 1ull]. *)
Definition get_bit (bit_string bit : Z) : result Z :=
  shifted ← shr bit_string bit; Ok (Z.land shifted 1).

(** [set_bit]: [bit_string ^= (-value ^ bit_string) & (1ull << bit);]
    [value] is promoted to [int] before it is negated, and converted to
    the 64 bits of [bit_string] after. *)
Definition set_bit (bit_string bit value : Z) : result Z :=
  m ← shl 1 bit;
  Ok (Z.lxor bit_string (Z.land (Z.lxor (to_uqword (- value)) bit_string) m)).

(** [clear_bit]: [bit_string &= ~(1ull << bit);]. *)
Definition clear_bit (bit_string bit : Z) : result Z :=
  m ← shl 1 bit; Ok (Z.land bit_string (not_uqword m)).

(** [toggle_bit]: [bit_string ^= (1ull << bit);]. *)
Definition toggle_bit (bit_string bit : Z) : result Z :=
  m ← shl 1 bit; Ok (Z.lxor bit_string m).

(** The number that a list of decimal digits denotes, least significant
    digit first. *)
Definition decimal_value (ds : list Z) : Z :=
  foldr (fun d acc => d + 10 * acc) 0 ds.

(** The sum of the significant-bit counts of the words of a list. *)
Definition sigbits_sum (ws : list Z) : Z :=
  foldr (fun w acc => sigbits w + acc) 0 ws.

(** The word that [set_bita] writes back at an in-range offset, where
    both shifts are defined:
    [word ^ ((word ^ ((value & 1) << k)) & (1 << k))] with
    [k = bit_offset % bits]. *)
Definition set_bita_word (word bit_offset value : Z) : Z :=
  Z.lxor word
    (Z.land (Z.lxor word (Z.land value 1 * 2 ^ (bit_offset mod word_bits)))
            (2 ^ (bit_offset mod word_bits))).

End BitMath.

Import BitMath.

(** ** Addresses of the pointer-free binary tree *)

Module Tree.

(** The parts of a logical tree address as [bin_index] takes it apart:
    [address & 1u] selects the side, [address >> 1u] is the path. *)
Definition side (address : Z) : Z := Z.land address 1.
Definition path (address : Z) : Z := Z.shiftr address 1.

(** The depth of an address is the [address_bits] that [bin_index]
    computes from its path: [log2i(address >> 1u)]. *)
Definition depth (address : Z) : Z := log2i (path address).

End Tree.

Import Tree.

(** ** memory.h: the partition store *)

(** [memory.h] declares [m_reserve], [m_resize] and [m_relinquish]; their
    bodies are not part of the headers.  The store below follows the
    specification's description of them, over a backing vector of bits. *)

Module Memory.

Local Open Scope nat_scope.

(** Modelled from the spec: the Partition record of the absent store,
    [{key, offset: bits, length: bits, live: bool}] with the key a pair
    [(context, identifier)]. *)
Record Partition : Type := mkPartition {
  p_context : Z;
  p_identifier : Z;
  p_offset : nat;
  p_length : nat;
  p_live : bool
}.

(** Modelled from the spec: the PartitionStore of the absent
    implementation, one growable backing vector, a key to region table
    and a free-list of [(offset, length)] regions.  [capacity] is the
    size beyond which the backing vector cannot grow. *)
Record Store : Type := mkStore {
  backing : list bool;
  table : gmap (Z * Z) Partition;
  free_list : list (nat * nat);
  capacity : nat
}.

(** Modelled from the spec: the results of the absent store operations;
    allocation failure is a distinguished result, the use of a key that
    names no live partition is a contract violation. *)
Inductive outcome (A : Type) : Type :=
| Done (a : A)
| AllocationFailure
| ContractViolation.
Arguments Done {A} a.
Arguments AllocationFailure {A}.
Arguments ContractViolation {A}.

(** Modelled from the spec: the content of a partition, the [length]
    bits of the backing vector from [offset] on. *)
Definition content (s : Store) (p : Partition) : list bool :=
  take (p_length p) (drop (p_offset p) (backing s)).

(** Modelled from the spec: the write of the relocation; the bits of
    [v] from [off] on are overwritten with [data]. *)
Definition write_bits (v : list bool) (off : nat) (data : list bool) : list bool :=
  take off v ++ data ++ drop (off + length data) v.

(** Modelled from the spec: the free-list search of the absent
    [m_reserve], the smallest free region that is at least as long as
    the request. *)
Fixpoint find_fit (bits : nat) (fl : list (nat * nat)) : option (nat * nat) :=
  match fl with
  | [] => None
  | r :: fl' =>
      match find_fit bits fl' with
      | Some r' =>
          if (bits <=? r.2) && (r.2 <=? r'.2) then Some r else Some r'
      | None => if bits <=? r.2 then Some r else None
      end
  end.

(** Modelled from the spec: a region leaves the free-list when it is
    handed out. *)
Fixpoint remove_region (r : nat * nat) (fl : list (nat * nat)) : list (nat * nat) :=
  match fl with
  | [] => []
  | r' :: fl' =>
      if (r.1 =? r'.1) && (r.2 =? r'.2) then fl' else r' :: remove_region r fl'
  end.

(** Modelled from the spec: the reclamation of the absent
    [m_relinquish]; the region enters the free-list, kept in the order of
    the offsets, and is coalesced with the free regions adjacent to it. *)
Fixpoint release_region (r : nat * nat) (fl : list (nat * nat)) : list (nat * nat) :=
  match fl with
  | [] => [r]
  | r' :: fl' =>
      if r.1 + r.2 =? r'.1 then (r.1, r.2 + r'.2) :: fl'
      else if r'.1 + r'.2 =? r.1 then release_region (r'.1, r'.2 + r.2) fl'
      else if r.1 <? r'.1 then r :: r' :: fl'
      else r' :: release_region r fl'
  end.

(** Modelled from the spec: the allocation step of the absent
    [m_reserve]; a fitting region of the free-list if there is one,
    otherwise a new region appended at the high-water mark, which grows
    the backing vector; allocation failure when it cannot grow. *)
Definition allocate (s : Store) (bits : nat) : outcome (Store * (nat * nat)) :=
  match find_fit bits (free_list s) with
  | Some r =>
      Done (mkStore (backing s) (table s) (remove_region r (free_list s))
                    (capacity s), r)
  | None =>
      let mark := length (backing s) in
      if mark + bits <=? capacity s
      then Done (mkStore (backing s ++ replicate bits false) (table s)
                         (free_list s) (capacity s), (mark, bits))
      else AllocationFailure
  end.

(** Modelled from the spec: [m_reserve], declared in [memory.h] without a
    body.  The region is assigned to the caller's key; a colliding key
    overwrites the prior entry. *)
Definition m_reserve (s : Store) (context identifier : Z) (bits : nat)
  : outcome (Store * Partition) :=
  match allocate s bits with
  | Done (s1, (off, len)) =>
      let p := mkPartition context identifier off len true in
      Done (mkStore (backing s1) (<[(context, identifier) := p]> (table s1))
                    (free_list s1) (capacity s1), p)
  | AllocationFailure => AllocationFailure
  | ContractViolation => ContractViolation
  end.

(** Modelled from the spec: the in-place growth of the absent [m_resize],
    possible when the space that trails the partition is free: a free
    region that starts where the partition ends and covers the missing
    bits, or the high-water mark itself. *)
Definition grow_in_place (s : Store) (context identifier : Z)
    (p : Partition) (bits : nat) : option (Store * Partition) :=
  let finish := p_offset p + p_length p in
  let missing := bits - p_length p in
  match List.find (fun r : nat * nat => (r.1 =? finish) && (missing <=? r.2))
                  (free_list s) with
  | Some r =>
      let p' := mkPartition context identifier (p_offset p)
                            (p_length p + r.2) true in
      Some (mkStore (backing s)
                    (<[(context, identifier) := p']> (table s))
                    (remove_region r (free_list s)) (capacity s), p')
  | None =>
      if (finish =? length (backing s)) &&
         (length (backing s) + missing <=? capacity s)
      then
        let p' := mkPartition context identifier (p_offset p) bits true in
        Some (mkStore (backing s ++ replicate missing false)
                      (<[(context, identifier) := p']> (table s))
                      (free_list s) (capacity s), p')
      else None
  end.

(** Modelled from the spec: [m_resize], declared in [memory.h] without a
    body.  Shrinking truncates; growing is in place when the trailing
    space is free and otherwise a copy-then-commit relocation: the
    content is written into a newly allocated region, then the table
    entry is swapped and the old region reclaimed.  A failed allocation
    leaves the store as it was. *)
Definition m_resize (s : Store) (context identifier : Z) (bits : nat)
  : outcome (Store * Partition) :=
  match table s !! (context, identifier) with
  | None => ContractViolation
  | Some p =>
      if negb (p_live p) then ContractViolation
      else if bits <=? p_length p then
        let p' := mkPartition context identifier (p_offset p) bits true in
        Done (mkStore (backing s) (<[(context, identifier) := p']> (table s))
                      (free_list s) (capacity s), p')
      else
        match grow_in_place s context identifier p bits with
        | Some (s', p') => Done (s', p')
        | None =>
            match allocate s bits with
            | Done (s1, (off, len)) =>
                let p' := mkPartition context identifier off len true in
                Done (mkStore (write_bits (backing s1) off (content s p))
                              (<[(context, identifier) := p']> (table s1))
                              (release_region (p_offset p, p_length p)
                                              (free_list s1))
                              (capacity s1), p')
            | AllocationFailure => AllocationFailure
            | ContractViolation => ContractViolation
            end
        end
  end.

(** Modelled from the spec: [m_relinquish], declared in [memory.h]
    without a body; the table entry is removed and the region returned
    to the free-list. *)
Definition m_relinquish (s : Store) (context identifier : Z) : outcome Store :=
  match table s !! (context, identifier) with
  | None => ContractViolation
  | Some p =>
      Done (mkStore (backing s) (delete (context, identifier) (table s))
                    (release_region (p_offset p, p_length p) (free_list s))
                    (capacity s))
  end.

(** Modelled from the spec: the regions the store keeps track of lie
    inside the backing vector, the partitions of the table as well as
    the free regions. *)
Definition store_bounded (s : Store) : Prop :=
  map_Forall (fun _ p => p_offset p + p_length p <= length (backing s)) (table s) /\
  Forall (fun r : nat * nat => r.1 + r.2 <= length (backing s)) (free_list s).

(** A store with two partitions back to back, the first one holding
    the bits 1011. *)
Definition example_store : Store :=
  mkStore [true; false; true; true; false; false]
          (<[(1%Z, 1%Z) := mkPartition 1 1 0 4 true]>
             (<[(2%Z, 2%Z) := mkPartition 2 2 4 2 true]> ∅))
          [] 64.

(** The same store after the first partition was resized to 6 bits: the
    partition moved behind the second one, its old region is free. *)
Definition example_store_resized : Store :=
  mkStore [true; false; true; true; false; false;
           true; false; true; true; false; false]
          (<[(1%Z, 1%Z) := mkPartition 1 1 6 6 true]> (table example_store))
          [(0, 4)] 64.

End Memory.

(** * Properties *)

(** ** Fixed-width arithmetic *)

Lemma to_uqword_small (z : Z) : 0 <= z < 2 ^ 64 -> to_uqword z = z.
Proof. intros H. unfold to_uqword. apply Z.mod_small. exact H. Qed.

Lemma to_udqword_small (z : Z) : 0 <= z < 2 ^ 128 -> to_udqword z = z.
Proof. intros H. unfold to_udqword. apply Z.mod_small. exact H. Qed.

Lemma to_qword_small (z : Z) : - 2 ^ 63 <= z < 2 ^ 63 -> to_qword z = z.
Proof. intros H. unfold to_qword. rewrite Z.mod_small; lia. Qed.

Lemma shl_defined (x n : Z) :
  0 <= n < 64 -> shl x n = Ok (to_uqword (x * 2 ^ n)).
Proof.
  intros [H0 H1]. unfold shl.
  rewrite (proj2 (Z.leb_le 0 n) H0), (proj2 (Z.ltb_lt n 64) H1). cbn.
  rewrite Z.shiftl_mul_pow2 by exact H0. reflexivity.
Qed.

Lemma shr_defined (x n : Z) :
  0 <= n < 64 -> shr x n = Ok (x / 2 ^ n).
Proof.
  intros [H0 H1]. unfold shr.
  rewrite (proj2 (Z.leb_le 0 n) H0), (proj2 (Z.ltb_lt n 64) H1). cbn.
  rewrite Z.shiftr_div_pow2 by exact H0. reflexivity.
Qed.

Lemma shl_undefined (x n : Z) : 64 <= n -> shl x n = Undefined.
Proof.
  intros H. unfold shl.
  rewrite (proj2 (Z.ltb_ge n 64) H), andb_false_r. reflexivity.
Qed.

Lemma shr_undefined (x n : Z) : 64 <= n -> shr x n = Undefined.
Proof.
  intros H. unfold shr.
  rewrite (proj2 (Z.ltb_ge n 64) H), andb_false_r. reflexivity.
Qed.

(** ** Leading zeros and [sigbits] *)

Lemma testbit_top (x n : Z) :
  0 <= n -> 0 <= x < 2 ^ (n + 1) -> Z.testbit x n = (2 ^ n <=? x).
Proof.
  intros Hn [Hx0 Hx1].
  assert (Hp : 0 < 2 ^ n) by (apply Z.pow_pos_nonneg; lia).
  destruct (Z.leb_spec (2 ^ n) x) as [Hle | Hlt].
  - assert (Hlog : Z.log2 x = n).
    { apply Z.log2_unique; [exact Hn |]. rewrite <- Z.add_1_r. lia. }
    rewrite <- Hlog at 1. apply Z.bit_log2. lia.
  - destruct (Z.eq_dec x 0) as [-> | Hnz]; [apply Z.bits_0 |].
    apply Z.bits_above_log2; [exact Hx0 |].
    apply Z.log2_lt_pow2; lia.
Qed.

Lemma leading_zeros_range (w : nat) (x : Z) :
  0 <= leading_zeros w x <= Z.of_nat w.
Proof.
  induction w as [| w IH]; cbn [leading_zeros]; [lia |].
  destruct (Z.testbit x (Z.of_nat w)); lia.
Qed.

Lemma leading_zeros_zero (w : nat) : leading_zeros w 0 = Z.of_nat w.
Proof.
  induction w as [| w IH]; cbn [leading_zeros]; [reflexivity |].
  rewrite Z.bits_0, IH. lia.
Qed.

Lemma leading_zeros_log2 (w : nat) (x : Z) :
  0 < x < 2 ^ Z.of_nat w -> leading_zeros w x = Z.of_nat w - 1 - Z.log2 x.
Proof.
  induction w as [| w IH]; intros [Hx0 Hx1].
  - change (2 ^ Z.of_nat 0) with 1 in Hx1. lia.
  - cbn [leading_zeros].
    rewrite testbit_top by (rewrite <- ?Nat2Z.inj_succ, ?Z.add_1_r; lia).
    destruct (Z.leb_spec (2 ^ Z.of_nat w) x) as [Hle | Hlt].
    + rewrite (Z.log2_unique x (Z.of_nat w)); [lia | lia |].
      rewrite <- Z.add_1_r, <- Nat2Z.inj_succ, Nat.add_1_r || idtac.
      split; [exact Hle |]. rewrite Nat2Z.inj_succ, <- Z.add_1_r in Hx1. exact Hx1.
    + rewrite IH by lia. lia.
Qed.

Lemma sigbits_log2 (x : Z) :
  0 <= x < 2 ^ 64 -> sigbits x = Z.log2 (Z.lor x 1) + 1.
Proof.
  intros [Hx0 Hx1]. unfold sigbits, builtin_clzll.
  assert (Hl : 0 < Z.lor x 1 < 2 ^ 64).
  { split.
    - assert (Z.lor x 1 <> 0) by (intros E; apply Z.lor_eq_0_iff in E; lia).
      pose proof (proj2 (Z.lor_nonneg x 1) ltac:(lia)). lia.
    - destruct (Z.eq_dec x 0) as [-> | Hnz]; [rewrite Z.lor_0_l; lia |].
      apply Z.log2_lt_pow2; [|rewrite Z.log2_lor by lia].
      + pose proof (proj2 (Z.lor_nonneg x 1) ltac:(lia)).
        assert (Z.lor x 1 <> 0) by (intros E; apply Z.lor_eq_0_iff in E; lia). lia.
      + change (Z.log2 1) with 0. apply Z.max_lub_lt; [|lia].
        apply Z.log2_lt_pow2; lia. }
  rewrite (leading_zeros_log2 64) by exact Hl.
  pose proof (Z.log2_nonneg (Z.lor x 1)).
  assert (Z.log2 (Z.lor x 1) < 64) by (apply Z.log2_lt_pow2; lia).
  change bitwidth_uqword with 64. rewrite to_uqword_small; lia.
Qed.

Lemma sigbits_spec (x : Z) : 0 <= x < 2 ^ 64 -> sigbits x = Z.log2 x + 1.
Proof.
  intros Hx. rewrite sigbits_log2 by exact Hx.
  rewrite Z.log2_lor by lia. change (Z.log2 1) with 0.
  pose proof (Z.log2_nonneg x). lia.
Qed.

Lemma log2_bound (x : Z) : 0 <= x < 2 ^ 64 -> 0 <= Z.log2 x < 64.
Proof.
  intros [Hx0 Hx1]. split; [apply Z.log2_nonneg |].
  destruct (Z.eq_dec x 0) as [-> | Hnz]; [reflexivity |].
  apply Z.log2_lt_pow2; lia.
Qed.

Lemma sigbits_range (x : Z) : 0 <= x < 2 ^ 64 -> 1 <= sigbits x <= 64.
Proof.
  intros Hx. rewrite sigbits_spec by exact Hx.
  pose proof (log2_bound x Hx). lia.
Qed.

Lemma log2i_spec (x : Z) : 0 <= x < 2 ^ 64 -> log2i x = Z.log2 x.
Proof.
  intros Hx. unfold log2i. rewrite sigbits_spec by exact Hx.
  pose proof (log2_bound x Hx). rewrite to_uqword_small; lia.
Qed.

(** C5: [sigbits(0) == 1]; [sigbits(2^k) == k + 1] for every [k] in
    [0, 63]; [sigbits(2^k - 1) == k] for every [k] with [1 <= k <= 64]. *)
Theorem sigbits_powers :
  sigbits 0 = 1 /\
  (forall k : Z, 0 <= k <= 63 -> sigbits (2 ^ k) = k + 1) /\
  (forall k : Z, 1 <= k <= 64 -> sigbits (2 ^ k - 1) = k).
Proof.
  split; [reflexivity | split]; intros k Hk.
  - rewrite sigbits_spec.
    + rewrite Z.log2_pow2; lia.
    + split; [apply Z.pow_nonneg; lia |].
      apply Z.pow_lt_mono_r; lia.
  - assert (Hp : 2 ^ k <= 2 ^ 64) by (apply Z.pow_le_mono_r; lia).
    assert (Hq : 2 <= 2 ^ k).
    { change 2 with (2 ^ 1) at 1. apply Z.pow_le_mono_r; lia. }
    rewrite sigbits_spec by lia.
    change (2 ^ k - 1) with (Z.pred (2 ^ k)).
    rewrite Z.log2_pred_pow2; lia.
Qed.

Lemma sigbits_powers_witness :
  sigbits (2 ^ 5) = 5 + 1 /\ sigbits (2 ^ 64 - 1) = 64.
Proof.
  split.
  - apply (proj1 (proj2 sigbits_powers) 5). lia.
  - apply (proj2 (proj2 sigbits_powers) 64). lia.
Defined.

(** ** [cntlz] and [cnttz] *)

Lemma count_loop_unfold (bs i z : Z) :
  count_loop bs i z =
  if (i <? bitwidth_uqword) && negb (to_ubyte (Z.land (Z.shiftr bs i) 1) =? 0)
  then count_loop bs (to_uqword (i + 1))
         (to_ubyte (z + to_ubyte (Z.land (Z.shiftr bs i) 1)))
  else z.
Proof.
  rewrite count_loop_equation_1.
  destruct (inspect _) as [c e].
  destruct c; cbn; rewrite e; reflexivity.
Qed.

Lemma land_shiftr_1 (y k : Z) :
  0 <= k -> Z.land (Z.shiftr y k) 1 = Z.b2z (Z.testbit y k).
Proof.
  intros Hk. change 1 with (Z.ones 1). rewrite Z.land_ones by lia.
  change (2 ^ 1) with 2. rewrite <- Z.bit0_mod.
  rewrite Z.shiftr_spec by lia. reflexivity.
Qed.

Lemma not_uqword_testbit (x k : Z) :
  0 <= k < 64 -> Z.testbit (not_uqword x) k = negb (Z.testbit x k).
Proof.
  intros Hk. unfold not_uqword, to_uqword.
  rewrite Z.mod_pow2_bits_low by lia. apply Z.lnot_spec. lia.
Qed.

(** The portable branch of [cntlz] starts at the top bit and counts
    upwards: it looks at bit 63 only. *)
Lemma cntlz_portable (x : Z) :
  cntlz ARCH_OTHER x = if Z.testbit x 63 then 0 else 1.
Proof.
  unfold cntlz. change (to_uqword (bitwidth_uqword - 1)) with 63.
  rewrite count_loop_unfold, land_shiftr_1 by lia.
  rewrite not_uqword_testbit by lia.
  destruct (Z.testbit x 63); cbn; [reflexivity |].
  rewrite count_loop_unfold. reflexivity.
Qed.

(** C4, at the zero word on the portable branch: [cnttz] returns the bit
    width, 64, but [cntlz] returns 1. *)
Theorem cntlz_zero_portable :
  bitwidth_uqword = 64 /\
  cnttz ARCH_OTHER 0 = bitwidth_uqword /\
  cntlz ARCH_OTHER 0 = 1.
Proof. split; [reflexivity | split; [reflexivity |]]. rewrite cntlz_portable. reflexivity. Qed.

Lemma cnttz_zero (a : arch) : cnttz a 0 = bitwidth_uqword.
Proof. destruct a; reflexivity. Qed.

Lemma cntlz_zero_native (a : arch) :
  a <> ARCH_OTHER -> cntlz a 0 = bitwidth_uqword.
Proof. destruct a; intros H; [reflexivity | reflexivity | contradiction]. Qed.

(** ** [umodq] *)

Lemma umodq_loop_unfold (a b : Z) :
  umodq_loop a b =
  if (b <=? a) && (0 <? b) then umodq_loop (to_uqword (a - b)) b else a.
Proof.
  rewrite umodq_loop_equation_1.
  destruct (inspect _) as [c e].
  destruct c; cbn; rewrite e; reflexivity.
Qed.

(** The subtraction loop computes the remainder, however many rounds it
    takes. *)
Lemma umodq_loop_spec (b : Z) :
  0 < b -> forall a : Z, 0 <= a < 2 ^ 64 -> umodq_loop a b = a mod b.
Proof.
  intros Hb a Ha. generalize Ha. pattern a.
  apply Z_lt_induction; [| lia].
  clear a Ha. intros a IH Ha.
  rewrite umodq_loop_unfold.
  destruct (Z.leb_spec b a) as [Hle | Hlt]; cbn [andb].
  - rewrite (proj2 (Z.ltb_lt 0 b) Hb).
    rewrite to_uqword_small by lia.
    rewrite IH by lia.
    rewrite <- (Z.mod_add _ 1 b) by lia. f_equal. lia.
  - symmetry. apply Z.mod_small. lia.
Qed.

Lemma umodq_count (b : Z) :
  0 <= b < 2 ^ 64 -> to_uqword (log2i b + 1) = Z.log2 b + 1.
Proof.
  intros Hb. rewrite log2i_spec by exact Hb.
  pose proof (log2_bound b Hb). apply to_uqword_small. lia.
Qed.

Section umodq_facts.

Variables shift_left shift_right : Z -> Z -> result Z.

(** In [umodq] the test of the expanded [shift] macro is
    [(!sigbits(a)) - sigbits(b)], never zero: [a] is left as it is,
    whatever the shifts of the other two branches would do. *)
Lemma umodq_shift_id (a b : Z) :
  0 <= a < 2 ^ 64 -> 0 <= b < 2 ^ 64 ->
  umodq_shift_on shift_left shift_right a b = Ok a.
Proof.
  intros Ha Hb. unfold umodq_shift_on.
  pose proof (sigbits_range a Ha) as Hsa.
  pose proof (sigbits_range b Hb) as Hsb.
  rewrite !(to_qword_small (sigbits _)) by lia.
  unfold lnot_int. destruct (Z.eqb_spec (sigbits a) 0) as [E | _]; [lia |].
  rewrite to_qword_small by lia.
  destruct (Z.eqb_spec (0 - sigbits b) 0) as [E | _]; [lia |].
  reflexivity.
Qed.

(** The shifts of the target are those of C for the counts that C
    defines. *)
Hypothesis shift_left_defined :
  forall x n : Z, 0 <= n < 64 -> shift_left x n = Ok (to_uqword (x * 2 ^ n)).
Hypothesis shift_right_defined :
  forall x n : Z, 0 <= n < 64 -> shift_right x n = Ok (x / 2 ^ n).

(** Below [2^63] every shift of [umodq] is defined and the result is the
    remainder. *)
Lemma umodq_on_below_2p63 (a b : Z) :
  0 <= a < 2 ^ 64 -> 0 < b < 2 ^ 63 ->
  umodq_on shift_left shift_right a b = Ok (a mod b).
Proof.
  intros Ha Hb. unfold umodq_on, lnot_int.
  destruct (Z.eqb_spec b 0) as [E | _]; [lia |]. cbn [Z.eqb negb].
  rewrite umodq_shift_id by lia. cbn [mbind result_bind].
  rewrite umodq_count by lia.
  set (h := 2 ^ Z.log2 b).
  assert (Hlog : 0 <= Z.log2 b < 63).
  { split; [apply Z.log2_nonneg | apply Z.log2_lt_pow2; lia]. }
  assert (Hh : h <= b < 2 * h).
  { unfold h. rewrite <- Z.pow_succ_r by lia. apply Z.log2_spec. lia. }
  assert (Hp : 2 ^ (Z.log2 b + 1) = 2 * h).
  { unfold h. rewrite Z.add_1_r, Z.pow_succ_r by lia. reflexivity. }
  assert (Hh63 : 2 * h <= 2 ^ 63).
  { rewrite <- Hp. apply Z.pow_le_mono_r; lia. }
  rewrite to_uqword_small by exact Ha.
  rewrite shift_right_defined, shift_left_defined by lia.
  cbn [mbind result_bind].
  rewrite Hp, Z.mul_1_l.
  rewrite (to_uqword_small (2 * h)) by lia.
  rewrite (to_udqword_small (2 * h)), (to_udqword_small b) by lia.
  rewrite (to_udqword_small (2 * h - b)) by lia.
  rewrite (to_uqword_small (2 * h - b)) by lia.
  rewrite (to_uqword_small (2 * h - 1)) by lia.
  rewrite (to_udqword_small (2 * h - 1)), (to_udqword_small a) by lia.
  replace (2 * h - 1) with (Z.ones (Z.log2 b + 1))
    by (rewrite Z.ones_equiv, Hp; lia).
  rewrite Z.land_ones, Hp by lia.
  pose proof (Z.div_mod a (2 * h) ltac:(lia)) as Hdm.
  pose proof (Z.mod_pos_bound a (2 * h) ltac:(lia)) as Hr.
  assert (Hq : 0 <= a / (2 * h)) by (apply Z.div_pos; lia).
  set (q := a / (2 * h)) in *. set (r := a mod (2 * h)) in *.
  assert (Hprod : (2 * h - b) * q <= h * q)
    by (apply Z.mul_le_mono_nonneg_r; lia).
  assert (Hnn : 0 <= (2 * h - b) * q) by (apply Z.mul_nonneg_nonneg; lia).
  rewrite (to_uqword_small r) by lia.
  rewrite (to_uqword_small ((2 * h - b) * q)) by lia.
  rewrite to_uqword_small by lia.
  rewrite umodq_loop_spec by lia.
  f_equal.
  replace (r + (2 * h - b) * q) with (a + (- q) * b) by lia.
  apply Z.mod_add. lia.
Qed.

End umodq_facts.

Lemma shl_masked_defined (x n : Z) :
  0 <= n < 64 -> shl_masked x n = Ok (to_uqword (x * 2 ^ n)).
Proof.
  intros Hn. unfold shl_masked. rewrite Z.mod_small by exact Hn.
  rewrite Z.shiftl_mul_pow2 by lia. reflexivity.
Qed.

Lemma shr_masked_defined (x n : Z) :
  0 <= n < 64 -> shr_masked x n = Ok (x / 2 ^ n).
Proof.
  intros Hn. unfold shr_masked. rewrite Z.mod_small by exact Hn.
  rewrite Z.shiftr_div_pow2 by lia. reflexivity.
Qed.

(** Below [2^63], [umodq] is the remainder, in C and on the machine. *)
Lemma umodq_below_2p63 (a b : Z) :
  0 <= a < 2 ^ 64 -> 0 < b < 2 ^ 63 -> umodq a b = Ok (a mod b).
Proof. apply umodq_on_below_2p63; [apply shl_defined | apply shr_defined]. Qed.

Lemma umodq_masked_below_2p63 (a b : Z) :
  0 <= a < 2 ^ 64 -> 0 < b < 2 ^ 63 -> umodq_masked a b = Ok (a mod b).
Proof.
  apply umodq_on_below_2p63; [apply shl_masked_defined | apply shr_masked_defined].
Qed.

(** From [2^63] on, [log2i(b) + 1] is 64 and [a >> 64] is not defined. *)
Lemma umodq_undefined_high (a b : Z) :
  0 <= a < 2 ^ 64 -> 2 ^ 63 <= b < 2 ^ 64 -> umodq a b = Undefined.
Proof.
  intros Ha Hb. unfold umodq, umodq_on, lnot_int.
  destruct (Z.eqb_spec b 0) as [E | _]; [lia |]. cbn [Z.eqb negb].
  rewrite umodq_shift_id by lia. cbn [mbind result_bind].
  rewrite umodq_count by lia.
  assert (Hlog : Z.log2 b = 63) by (apply Z.log2_unique; lia).
  rewrite Hlog. reflexivity.
Qed.

(** C1, at a divisor with the top bit set: the remainder of 1 by
    [2^63 + 1] is 1, but the shifts by 64 make the call undefined in C,
    and on a machine that masks the count the result is [2^63]. *)
Theorem umodq_top_bit_divisor :
  1 mod (2 ^ 63 + 1) = 1 /\
  umodq 1 (2 ^ 63 + 1) = Undefined /\
  umodq_masked 1 (2 ^ 63 + 1) = Ok (2 ^ 63).
Proof. repeat split; reflexivity. Qed.

(** C7: [umodq(a, 0)] returns 0 for every [a]. *)
Theorem umodq_zero (a : Z) : umodq a 0 = Ok 0.
Proof. reflexivity. Qed.

(** ** [bin_index] *)

Lemma side_spec (a : Z) : side a = a mod 2.
Proof. unfold side. change 1 with (Z.ones 1). apply Z.land_ones. lia. Qed.

Lemma path_spec (a : Z) : path a = a / 2.
Proof. unfold path. rewrite Z.shiftr_div_pow2 by lia. reflexivity. Qed.

Lemma address_split (a : Z) : a = 2 * path a + side a.
Proof. rewrite side_spec, path_spec. apply Z.div_mod. lia. Qed.

(** The offset in closed form: the two slots of the root for the paths 0
    and 1, the formula of the header's comment from the path 2 on. *)
Lemma bin_index_spec (a : Z) :
  0 <= a < 2 ^ 64 ->
  bin_index a =
  Ok (if path a <=? 1 then side a
      else 2 * 2 ^ Z.log2 (path a) - 2 + path a - side a * 2 ^ Z.log2 (path a)).
Proof.
  intros Ha. unfold bin_index. fold (side a).
  rewrite shr_defined by lia. change (2 ^ 1) with 2.
  rewrite <- path_spec. cbn [mbind result_bind].
  pose proof (address_split a) as Hsplit.
  assert (Hs : 0 <= side a < 2)
    by (rewrite side_spec; apply Z.mod_pos_bound; lia).
  assert (Hp : 0 <= path a < 2 ^ 63) by lia.
  unfold lnot_int.
  destruct (Z.eqb_spec (path a) 0) as [E0 | N0]; cbn [Z.eqb negb].
  { rewrite E0. reflexivity. }
  destruct (Z.eqb_spec (path a) 1) as [E1 | N1].
  { rewrite E1. reflexivity. }
  destruct (Z.leb_spec (path a) 1) as [Hle | Hgt]; [lia |].
  rewrite log2i_spec by lia.
  set (d := Z.log2 (path a)).
  assert (Hd : 0 <= d < 63).
  { split; [apply Z.log2_nonneg | apply Z.log2_lt_pow2; lia]. }
  assert (Hh : 2 ^ d <= path a < 2 * 2 ^ d).
  { unfold d. rewrite <- Z.pow_succ_r by apply Z.log2_nonneg.
    apply Z.log2_spec. lia. }
  assert (Hh63 : 2 * 2 ^ d <= 2 ^ 63).
  { rewrite <- Z.pow_succ_r by lia. apply Z.pow_le_mono_r; lia. }
  rewrite !shl_defined by lia. cbn [mbind result_bind].
  rewrite Z.mul_1_l.
  rewrite (to_uqword_small (2 * 2 ^ d)), (to_uqword_small (2 ^ d)) by lia.
  assert (Hsd : 0 <= side a * 2 ^ d <= 2 ^ d) by nia.
  rewrite (to_uqword_small (2 * 2 ^ d - 2)) by lia.
  rewrite (to_uqword_small (2 * 2 ^ d - 2 + path a)) by lia.
  rewrite (to_uqword_small (side a * 2 ^ d)) by lia.
  rewrite to_uqword_small by lia.
  reflexivity.
Qed.

(** The offsets of depth [d] fill the interval from [2^(d+1) - 2] up to,
    and not including, [2^(d+2) - 2]. *)
Lemma bin_index_level (a : Z) :
  0 <= a < 2 ^ 64 ->
  exists o : Z,
    bin_index a = Ok o /\
    2 * 2 ^ depth a - 2 <= o < 4 * 2 ^ depth a - 2.
Proof.
  intros Ha. rewrite bin_index_spec by exact Ha.
  eexists; split; [reflexivity |].
  assert (Hs : 0 <= side a < 2)
    by (rewrite side_spec; apply Z.mod_pos_bound; lia).
  pose proof (address_split a) as Hsplit.
  assert (Hp : 0 <= path a < 2 ^ 63) by lia.
  unfold depth. rewrite log2i_spec by lia.
  destruct (Z.leb_spec (path a) 1) as [Hle | Hgt].
  - assert (E : Z.log2 (path a) = 0).
    { destruct (Z.eq_dec (path a) 0) as [-> | N]; [reflexivity |].
      replace (path a) with 1 by lia. reflexivity. }
    rewrite E. change (2 ^ 0) with 1. lia.
  - set (d := Z.log2 (path a)).
    assert (Hh : 2 ^ d <= path a < 2 * 2 ^ d).
    { unfold d. rewrite <- Z.pow_succ_r by apply Z.log2_nonneg.
      apply Z.log2_spec. lia. }
    nia.
Qed.

(** C3: every offset of an address at depth [d] is strictly less than every
    offset of an address at depth [d + 1]. *)
Theorem bin_index_depth_monotone (a1 a2 : Z) :
  0 <= a1 < 2 ^ 64 -> 0 <= a2 < 2 ^ 64 ->
  depth a2 = depth a1 + 1 ->
  exists o1 o2 : Z,
    bin_index a1 = Ok o1 /\ bin_index a2 = Ok o2 /\ o1 < o2.
Proof.
  intros H1 H2 Hd.
  destruct (bin_index_level a1 H1) as (o1 & E1 & B1).
  destruct (bin_index_level a2 H2) as (o2 & E2 & B2).
  exists o1, o2. repeat split; [exact E1 | exact E2 |].
  assert (Hn : 0 <= depth a1).
  { unfold depth, log2i, to_uqword. apply Z.mod_pos_bound. lia. }
  rewrite Hd, Z.add_1_r, Z.pow_succ_r in B2 by exact Hn.
  lia.
Qed.

Lemma bin_index_depth_monotone_witness :
  exists o1 o2 : Z, bin_index 7 = Ok o1 /\ bin_index 8 = Ok o2 /\ o1 < o2.
Proof.
  apply (bin_index_depth_monotone 7 8); [lia | lia | reflexivity].
Defined.

(** The offsets of addresses whose depths differ are different. *)
Lemma bin_index_depth_inj (a1 a2 o : Z) :
  0 <= a1 < 2 ^ 64 -> 0 <= a2 < 2 ^ 64 ->
  bin_index a1 = Ok o -> bin_index a2 = Ok o -> depth a1 = depth a2.
Proof.
  intros H1 H2 E1 E2.
  destruct (bin_index_level a1 H1) as (o1 & F1 & B1).
  destruct (bin_index_level a2 H2) as (o2 & F2 & B2).
  rewrite E1 in F1. rewrite E2 in F2.
  injection F1 as <-. injection F2 as <-.
  assert (Hn : forall a, 0 <= depth a).
  { intros a. unfold depth, log2i, to_uqword. apply Z.mod_pos_bound. lia. }
  destruct (Z.lt_trichotomy (depth a1) (depth a2)) as [Hlt | [Heq | Hgt]];
    [exfalso | exact Heq | exfalso].
  - assert (2 * 2 ^ depth a1 <= 2 ^ depth a2).
    { rewrite <- Z.pow_succ_r by apply Hn. apply Z.pow_le_mono_r; lia. }
    lia.
  - assert (2 * 2 ^ depth a2 <= 2 ^ depth a1).
    { rewrite <- Z.pow_succ_r by apply Hn. apply Z.pow_le_mono_r; lia. }
    lia.
Qed.

(** Away from the path 0, [bin_index] is injective on the whole 64-bit
    range of addresses. *)
Lemma bin_index_injective_paths (a1 a2 : Z) :
  0 <= a1 < 2 ^ 64 -> 0 <= a2 < 2 ^ 64 ->
  1 <= path a1 -> 1 <= path a2 ->
  bin_index a1 = bin_index a2 -> a1 = a2.
Proof.
  intros H1 H2 P1 P2 E.
  pose proof (bin_index_spec a1 H1) as S1.
  pose proof (bin_index_spec a2 H2) as S2.
  assert (Hd : depth a1 = depth a2).
  { eapply bin_index_depth_inj; [exact H1 | exact H2 | exact S1 |].
    rewrite <- E. exact S1. }
  rewrite E, S2 in S1. injection S1 as S1.
  pose proof (address_split a1) as A1.
  pose proof (address_split a2) as A2.
  assert (Hs1 : 0 <= side a1 < 2)
    by (rewrite side_spec; apply Z.mod_pos_bound; lia).
  assert (Hs2 : 0 <= side a2 < 2)
    by (rewrite side_spec; apply Z.mod_pos_bound; lia).
  unfold depth in Hd. rewrite !log2i_spec in Hd by lia.
  rewrite Hd in S1.
  assert (Hh1 : 2 ^ Z.log2 (path a1) <= path a1 < 2 * 2 ^ Z.log2 (path a1)).
  { rewrite <- Z.pow_succ_r by apply Z.log2_nonneg. apply Z.log2_spec. lia. }
  assert (Hh2 : 2 ^ Z.log2 (path a2) <= path a2 < 2 * 2 ^ Z.log2 (path a2)).
  { rewrite <- Z.pow_succ_r by apply Z.log2_nonneg. apply Z.log2_spec. lia. }
  rewrite Hd in Hh1.
  set (h := 2 ^ Z.log2 (path a2)) in *.
  destruct (Z.leb_spec (path a1) 1) as [L1 | G1];
    destruct (Z.leb_spec (path a2) 1) as [L2 | G2].
  - lia.
  - exfalso. assert (Z.log2 (path a1) = 0)
      by (replace (path a1) with 1 by lia; reflexivity).
    assert (1 <= Z.log2 (path a2)).
    { change 1 with (Z.log2 2). apply Z.log2_le_mono. lia. }
    lia.
  - exfalso. assert (Z.log2 (path a2) = 0)
      by (replace (path a2) with 1 by lia; reflexivity).
    assert (1 <= Z.log2 (path a1)).
    { change 1 with (Z.log2 2). apply Z.log2_le_mono. lia. }
    lia.
  - assert (C1 : side a1 = 0 \/ side a1 = 1) by lia.
    assert (C2 : side a2 = 0 \/ side a2 = 1) by lia.
    destruct C1 as [C1 | C1], C2 as [C2 | C2]; rewrite C1, C2 in *; lia.
Qed.

Lemma side_range (a : Z) : 0 <= side a < 2.
Proof. rewrite side_spec. apply Z.mod_pos_bound. lia. Qed.

(** Two distinct addresses share an offset only at the root: one has the
    path 0, the other the path 1, and their sides are equal. *)
Lemma bin_index_collision (a1 a2 : Z) :
  0 <= a1 < 2 ^ 64 -> 0 <= a2 < 2 ^ 64 -> a1 <> a2 ->
  bin_index a1 = bin_index a2 ->
  path a1 + path a2 = 1 /\ side a1 = side a2.
Proof.
  intros H1 H2 Hne E.
  pose proof (bin_index_spec a1 H1) as S1.
  pose proof (bin_index_spec a2 H2) as S2.
  pose proof (address_split a1) as A1. pose proof (address_split a2) as A2.
  pose proof (side_range a1) as R1. pose proof (side_range a2) as R2.
  assert (Hd : depth a1 = depth a2).
  { eapply bin_index_depth_inj; [exact H1 | exact H2 | exact S1 |].
    rewrite <- E. exact S1. }
  unfold depth in Hd. rewrite !log2i_spec in Hd by lia.
  destruct (Z_le_gt_dec 1 (path a1)) as [P1 | P1];
    destruct (Z_le_gt_dec 1 (path a2)) as [P2 | P2].
  - exfalso. apply Hne. apply bin_index_injective_paths; assumption.
  - replace (path a2) with 0 in * by lia.
    change (Z.log2 0) with 0 in Hd. apply Z.log2_null in Hd.
    rewrite E, S2 in S1. injection S1 as S1.
    rewrite (proj2 (Z.leb_le (path a1) 1) Hd) in S1.
    change (0 <=? 1) with true in S1. cbn iota in S1. lia.
  - replace (path a1) with 0 in * by lia.
    change (Z.log2 0) with 0 in Hd. symmetry in Hd. apply Z.log2_null in Hd.
    rewrite E, S2 in S1. injection S1 as S1.
    rewrite (proj2 (Z.leb_le (path a2) 1) Hd) in S1.
    change (0 <=? 1) with true in S1. cbn iota in S1. lia.
  - exfalso. apply Hne.
    replace (path a1) with 0 in * by lia. replace (path a2) with 0 in * by lia.
    rewrite E, S2 in S1. injection S1 as S1.
    change (0 <=? 1) with true in S1. cbn iota in S1. lia.
Qed.

(** C2 as amended: two distinct addresses whose paths lie in [0, 2^20)
    have distinct offsets, unless one has the path 0, the other the path 1
    and their sides are equal. *)
Theorem bin_index_injective (a1 a2 : Z) :
  0 <= path a1 < 2 ^ 20 -> 0 <= path a2 < 2 ^ 20 ->
  a1 <> a2 ->
  ~ (path a1 + path a2 = 1 /\ side a1 = side a2) ->
  exists o1 o2 : Z,
    bin_index a1 = Ok o1 /\ bin_index a2 = Ok o2 /\ o1 <> o2.
Proof.
  intros P1 P2 Hne Hroot.
  assert (R : forall a, 0 <= path a < 2 ^ 20 -> 0 <= a < 2 ^ 64).
  { intros a Hp. pose proof (address_split a). pose proof (side_range a). lia. }
  pose proof (R a1 P1) as H1. pose proof (R a2 P2) as H2.
  pose proof (bin_index_spec a1 H1) as S1.
  pose proof (bin_index_spec a2 H2) as S2.
  eexists _, _. repeat split; [exact S1 | exact S2 |].
  intros E. apply Hroot.
  apply bin_index_collision; try assumption.
  rewrite S1, S2, E. reflexivity.
Qed.

Lemma bin_index_injective_witness :
  exists o1 o2 : Z, bin_index 1 = Ok o1 /\ bin_index 2 = Ok o2 /\ o1 <> o2.
Proof.
  apply (bin_index_injective 1 2).
  - change (path 1) with 0. lia.
  - change (path 2) with 1. lia.
  - lia.
  - change (side 1) with 1. change (side 2) with 0. lia.
Defined.

(** C2 as stated fails: the addresses 0 and 2, of paths 0 and 1, share
    the offset 0, and the addresses 1 and 3 the offset 1. *)
Lemma bin_index_root_collision :
  (0 <= path 0 < 2 ^ 20) /\ (0 <= path 2 < 2 ^ 20) /\ 0 <> 2 /\
  bin_index 0 = Ok 0 /\ bin_index 2 = Ok 0 /\
  bin_index 1 = Ok 1 /\ bin_index 3 = Ok 1.
Proof.
  change (path 0) with 0. change (path 2) with 1.
  repeat split; try lia; reflexivity.
Qed.

(** ** Bit arrays: [get_bita] and [set_bita] *)

Lemma in_buffer_spec (min max value : Z) :
  in_buffer min max value = true <-> min <= value < max.
Proof.
  unfold in_buffer. rewrite andb_true_iff, Z.leb_le, Z.ltb_lt. reflexivity.
Qed.

(** The guard of both accessors, in terms of the bit index. *)
Lemma bita_guard (words i : Z) :
  0 <= i ->
  in_buffer 0 words (i / word_bits) = true <-> i < words * word_bits.
Proof.
  intros Hi. rewrite in_buffer_spec. change word_bits with 64.
  split.
  - intros [_ H]. apply Z.nle_gt. intros Hle.
    assert (words <= i / 64) by (apply Z.div_le_lower_bound; lia). lia.
  - intros H. split; [apply Z.div_pos; lia |].
    apply Z.div_lt_upper_bound; lia.
Qed.

Lemma load_defined (arr : list Z) (k : Z) :
  0 <= k < Z.of_nat (length arr) ->
  exists w : Z, arr !! Z.to_nat k = Some w /\ load arr k = Ok w.
Proof.
  intros [H0 H1]. unfold load.
  rewrite (proj2 (Z.ltb_ge k 0) H0).
  destruct (lookup_lt_is_Some_2 arr (Z.to_nat k) ltac:(lia)) as [w Hw].
  exists w. rewrite Hw. split; reflexivity.
Qed.

Lemma store_defined (arr : list Z) (k w : Z) :
  0 <= k < Z.of_nat (length arr) ->
  store arr k w = Ok (<[Z.to_nat k := w]> arr).
Proof.
  intros [H0 H1]. unfold store.
  rewrite (proj2 (Z.leb_le 0 k) H0), (proj2 (Z.ltb_lt _ _) H1).
  reflexivity.
Qed.

Lemma land_1_range (v : Z) : 0 <= Z.land v 1 < 2.
Proof.
  change 1 with (Z.ones 1). rewrite Z.land_ones by lia.
  apply Z.mod_pos_bound. lia.
Qed.

Lemma get_bita_in_range (arr : list Z) (words i : Z) :
  Z.of_nat (length arr) = words -> 0 <= i < words * word_bits ->
  exists w : Z,
    arr !! Z.to_nat (i / word_bits) = Some w /\
    get_bita arr words i = Ok (Z.b2z (Z.testbit w (i mod word_bits))).
Proof.
  intros Hlen Hi. unfold get_bita.
  rewrite (proj2 (bita_guard words i ltac:(lia))) by lia.
  cbn [negb mbind result_bind].
  pose proof (proj2 (bita_guard words i ltac:(lia)) ltac:(lia)) as Hk.
  apply in_buffer_spec in Hk. rewrite <- Hlen in Hk.
  destruct (load_defined arr (i / word_bits) Hk) as (w & Hw & ->).
  exists w. split; [exact Hw |]. cbn [mbind result_bind].
  pose proof (Z.mod_pos_bound i word_bits ltac:(reflexivity)) as Hm.
  change word_bits with 64 in Hm |- *.
  rewrite shr_defined by lia. cbn [mbind result_bind].
  change (to_uqword 1) with 1.
  rewrite <- Z.shiftr_div_pow2, land_shiftr_1 by lia. reflexivity.
Qed.

Lemma set_bita_in_range (arr : list Z) (words i v : Z) :
  Z.of_nat (length arr) = words -> 0 <= i < words * word_bits ->
  exists w : Z,
    arr !! Z.to_nat (i / word_bits) = Some w /\
    set_bita arr words i v =
      Ok (<[Z.to_nat (i / word_bits) := set_bita_word w i v]> arr).
Proof.
  intros Hlen Hi. unfold set_bita.
  rewrite (proj2 (bita_guard words i ltac:(lia))) by lia.
  cbn [negb mbind result_bind].
  pose proof (proj2 (bita_guard words i ltac:(lia)) ltac:(lia)) as Hk.
  apply in_buffer_spec in Hk. rewrite <- Hlen in Hk.
  destruct (load_defined arr (i / word_bits) Hk) as (w & Hw & ->).
  exists w. split; [exact Hw |]. cbn [mbind result_bind].
  pose proof (Z.mod_pos_bound i word_bits ltac:(reflexivity)) as Hm.
  unfold set_bita_word.
  change word_bits with 64 in Hm |- *.
  change (to_uqword 1) with 1.
  rewrite !shl_defined by lia. cbn [mbind result_bind].
  rewrite Z.mul_1_l.
  pose proof (land_1_range v) as Hb.
  assert (Hp : 0 < 2 ^ (i mod 64) <= 2 ^ 63).
  { split; [apply Z.pow_pos_nonneg; lia | apply Z.pow_le_mono_r; lia]. }
  rewrite (to_uqword_small (2 ^ (i mod 64))) by lia.
  rewrite (to_uqword_small (Z.land v 1 * 2 ^ (i mod 64))) by nia.
  apply store_defined. exact Hk.
Qed.

(** Bit [n] of the word written back: the new value at the addressed
    position, the old bit everywhere else. *)
Lemma set_bita_word_testbit (w i v n : Z) :
  0 <= n ->
  Z.testbit (set_bita_word w i v) n =
  if n =? i mod word_bits then Z.testbit v 0 else Z.testbit w n.
Proof.
  intros Hn. unfold set_bita_word.
  pose proof (Z.mod_pos_bound i word_bits ltac:(reflexivity)) as Hm.
  rewrite Z.lxor_spec, Z.land_spec, Z.lxor_spec.
  rewrite Z.pow2_bits_eqb by lia.
  rewrite (Z.eqb_sym (i mod word_bits) n).
  destruct (Z.eqb_spec n (i mod word_bits)) as [-> | Hne].
  - rewrite Z.mul_pow2_bits, Z.sub_diag by lia.
    rewrite Z.land_spec. change (Z.testbit 1 0) with true.
    destruct (Z.testbit w (i mod word_bits)), (Z.testbit v 0); reflexivity.
  - rewrite andb_false_r, xorb_false_r. reflexivity.
Qed.

Lemma get_bita_out_of_range (arr : list Z) (words i : Z) :
  0 <= i -> words * word_bits <= i ->
  get_bita arr words i =
  fatalf "get_bita" "index out of range: 0 <= index=%u < %u"
    [i / word_bits; words].
Proof.
  intros H0 Hi. unfold get_bita.
  destruct (in_buffer 0 words (i / word_bits)) eqn:E; [| reflexivity].
  apply bita_guard in E; lia.
Qed.

Lemma set_bita_out_of_range (arr : list Z) (words i v : Z) :
  0 <= i -> words * word_bits <= i ->
  set_bita arr words i v =
  fatalf "set_bita" "index out of range: 0 <= index=%u < %u"
    [i / word_bits; words].
Proof.
  intros H0 Hi. unfold set_bita.
  destruct (in_buffer 0 words (i / word_bits)) eqn:E; [| reflexivity].
  apply bita_guard in E; lia.
Qed.

(** C9: [get_bita] and [set_bita] end in the fatal diagnostic exactly when
    the bit index is not below [words * word_bits]; for an in-range index
    both complete normally. *)
Theorem bita_fatal_iff_out_of_range (arr : list Z) (words i v : Z) :
  Z.of_nat (length arr) = words -> 0 <= i ->
  (is_fatal (get_bita arr words i) <-> words * word_bits <= i) /\
  (is_fatal (set_bita arr words i v) <-> words * word_bits <= i) /\
  (i < words * word_bits ->
   is_ok (get_bita arr words i) /\ is_ok (set_bita arr words i v)).
Proof.
  intros Hlen Hi.
  destruct (Z_lt_le_dec i (words * word_bits)) as [Hin | Hout].
  - destruct (get_bita_in_range arr words i Hlen ltac:(lia)) as (w & _ & Eg).
    destruct (set_bita_in_range arr words i v Hlen ltac:(lia)) as (w' & _ & Es).
    rewrite Eg, Es. cbn [is_fatal is_ok].
    repeat split; try contradiction; try lia.
  - rewrite get_bita_out_of_range, set_bita_out_of_range by assumption.
    cbn [fatalf is_fatal is_ok].
    repeat split; try lia; try exact Hout.
Qed.

Lemma bita_fatal_iff_out_of_range_witness :
  (is_fatal (get_bita [0; 2] 2 65) <-> 2 * word_bits <= 65) /\
  (is_fatal (set_bita [0; 2] 2 65 1) <-> 2 * word_bits <= 65) /\
  (65 < 2 * word_bits ->
   is_ok (get_bita [0; 2] 2 65) /\ is_ok (set_bita [0; 2] 2 65 1)).
Proof.
  apply (bita_fatal_iff_out_of_range [0; 2] 2 65 1); [reflexivity | lia].
Defined.

(** C8: after [set_bita(arr, words, i, v)] with [v] in {0, 1} and [i]
    below [words * word_bits], [get_bita(arr, words, i)] returns [v]. *)
Theorem get_bita_set_bita (arr : list Z) (words i v : Z) :
  Z.of_nat (length arr) = words -> 0 <= i < words * word_bits ->
  v = 0 \/ v = 1 ->
  exists arr' : list Z,
    set_bita arr words i v = Ok arr' /\ get_bita arr' words i = Ok v.
Proof.
  intros Hlen Hi Hv.
  destruct (set_bita_in_range arr words i v Hlen Hi) as (w & Hw & Es).
  eexists; split; [exact Es |].
  set (k := Z.to_nat (i / word_bits)) in *.
  assert (Hk : (k < length arr)%nat) by (eapply lookup_lt_Some; exact Hw).
  destruct (get_bita_in_range (<[k := set_bita_word w i v]> arr) words i)
    as (w' & Hw' & Eg); [rewrite length_insert; exact Hlen | exact Hi |].
  fold k in Hw'. rewrite list_lookup_insert_eq in Hw' by exact Hk.
  injection Hw' as <-. rewrite Eg. f_equal.
  pose proof (Z.mod_pos_bound i word_bits ltac:(reflexivity)) as Hm.
  rewrite set_bita_word_testbit, Z.eqb_refl by lia.
  destruct Hv as [-> | ->]; reflexivity.
Qed.

Lemma get_bita_set_bita_witness :
  exists arr' : list Z,
    set_bita [5; 0] 2 65 1 = Ok arr' /\ get_bita arr' 2 65 = Ok 1.
Proof.
  apply (get_bita_set_bita [5; 0] 2 65 1);
    [reflexivity | change word_bits with 64; lia | right; reflexivity].
Defined.

(** C10: [set_bita] at an in-range offset [i] leaves every word other than
    word [i / word_bits] unchanged, and in that word every bit other than
    bit [i mod word_bits]. *)
Theorem set_bita_frame (arr : list Z) (words i v : Z) :
  Z.of_nat (length arr) = words -> 0 <= i < words * word_bits ->
  exists (arr' : list Z) (w w' : Z),
    set_bita arr words i v = Ok arr' /\
    length arr' = length arr /\
    (forall j : nat, j <> Z.to_nat (i / word_bits) -> arr' !! j = arr !! j) /\
    arr !! Z.to_nat (i / word_bits) = Some w /\
    arr' !! Z.to_nat (i / word_bits) = Some w' /\
    (forall n : Z, 0 <= n -> n <> i mod word_bits ->
                   Z.testbit w' n = Z.testbit w n).
Proof.
  intros Hlen Hi.
  destruct (set_bita_in_range arr words i v Hlen Hi) as (w & Hw & Es).
  set (k := Z.to_nat (i / word_bits)) in *.
  assert (Hk : (k < length arr)%nat) by (eapply lookup_lt_Some; exact Hw).
  exists (<[k := set_bita_word w i v]> arr), w, (set_bita_word w i v).
  split; [exact Es |].
  split; [apply length_insert |].
  split; [intros j Hj; apply list_lookup_insert_ne; congruence |].
  split; [exact Hw |].
  split; [apply list_lookup_insert_eq; exact Hk |].
  intros n Hn Hne. rewrite set_bita_word_testbit by exact Hn.
  destruct (Z.eqb_spec n (i mod word_bits)); [contradiction | reflexivity].
Qed.

Lemma set_bita_frame_witness :
  exists (arr' : list Z) (w w' : Z),
    set_bita [5; 6] 2 65 0 = Ok arr' /\
    length arr' = length [5; 6] /\
    (forall j : nat, j <> Z.to_nat (65 / word_bits) -> arr' !! j = [5; 6] !! j) /\
    [5; 6] !! Z.to_nat (65 / word_bits) = Some w /\
    arr' !! Z.to_nat (65 / word_bits) = Some w' /\
    (forall n : Z, 0 <= n -> n <> 65 mod word_bits ->
                   Z.testbit w' n = Z.testbit w n).
Proof.
  apply (set_bita_frame [5; 6] 2 65 0);
    [reflexivity | change word_bits with 64; lia].
Defined.

(** ** The partition store: [m_resize] *)

Section memory_facts.

Import Memory.
Local Open Scope nat_scope.

Lemma find_fit_spec (bits : nat) (fl : list (nat * nat)) (r : nat * nat) :
  find_fit bits fl = Some r -> r ∈ fl /\ bits <= r.2.
Proof.
  revert r. induction fl as [| r0 fl IH]; intros r; cbn [find_fit].
  - discriminate.
  - destruct (find_fit bits fl) as [r' |].
    + destruct (IH r' eq_refl) as [Hin Hle].
      destruct ((bits <=? r0.2) && (r0.2 <=? r'.2)) eqn:E; intros [= <-].
      * apply andb_prop in E as [E _]. apply Nat.leb_le in E.
        split; [left | exact E].
      * split; [right; exact Hin | exact Hle].
    + destruct (bits <=? r0.2) eqn:E; [| discriminate].
      intros [= <-]. apply Nat.leb_le in E. split; [left | exact E].
Qed.

(** What [allocate] hands out: a region that is long enough and inside
    the backing vector, which keeps its old bits as a prefix. *)
Lemma allocate_spec (s s1 : Store) (bits off len : nat) :
  store_bounded s ->
  allocate s bits = Done (s1, (off, len)) ->
  bits <= len /\ off + len <= length (backing s1) /\
  table s1 = table s /\
  exists tail : list bool, backing s1 = backing s ++ tail.
Proof.
  intros [_ Hfree]. unfold allocate.
  destruct (find_fit bits (free_list s)) as [r |] eqn:Ef.
  - intros E. injection E as Es Er. subst s1 r. cbn.
    destruct (find_fit_spec _ _ _ Ef) as [Hin Hle].
    rewrite Forall_forall in Hfree. specialize (Hfree _ Hin). cbn in *.
    repeat split; try lia. exists []. rewrite app_nil_r. reflexivity.
  - destruct (length (backing s) + bits <=? capacity s) eqn:Ec; [| discriminate].
    intros E. injection E as Es Eo El. subst s1 off len. cbn.
    rewrite length_app, length_replicate.
    repeat split; try lia. eexists. reflexivity.
Qed.

Lemma content_prefix (s : Store) (p : Partition) (m : nat) :
  take m (content s p) = take (min m (p_length p)) (drop (p_offset p) (backing s)).
Proof. unfold content. apply take_take. Qed.

Lemma content_length (s : Store) (p : Partition) :
  p_offset p + p_length p <= length (backing s) ->
  length (content s p) = p_length p.
Proof.
  intros H. unfold content. rewrite length_take, length_drop. lia.
Qed.

Lemma drop_write_bits (v data : list bool) (off : nat) :
  off <= length v ->
  drop off (write_bits v off data) = data ++ drop (off + length data) v.
Proof.
  intros H. unfold write_bits.
  apply drop_app_length'. rewrite length_take. lia.
Qed.

(** Shrinking: the region keeps its place and the store its bits. *)
Lemma m_resize_shrink (s : Store) (c i : Z) (bits : nat) (p : Partition) :
  table s !! (c, i) = Some p -> p_live p = true ->
  bits <= p_length p ->
  m_resize s c i bits =
  Done (mkStore (backing s)
          (<[(c, i) := mkPartition c i (p_offset p) bits true]> (table s))
          (free_list s) (capacity s),
        mkPartition c i (p_offset p) bits true).
Proof.
  intros Hp Hlive Hle. unfold m_resize. rewrite Hp, Hlive. cbn [negb].
  apply Nat.leb_le in Hle. rewrite Hle. reflexivity.
Qed.

Lemma grow_in_place_spec
    (s s' : Store) (c i : Z) (p p' : Partition) (bits : nat) :
  p_offset p + p_length p <= length (backing s) ->
  p_length p < bits ->
  grow_in_place s c i p bits = Some (s', p') ->
  table s' !! (c, i) = Some p' /\
  bits <= p_length p' /\
  take (p_length p) (content s' p') = content s p.
Proof.
  intros Hb Hlt. unfold grow_in_place.
  destruct (List.find _ (free_list s)) as [r |] eqn:Ef.
  - intros E. injection E as <- <-.
    cbn [table p_length p_offset backing].
    apply find_some in Ef as [_ Ef].
    apply andb_prop in Ef as [_ Ef]. apply Nat.leb_le in Ef.
    split; [apply lookup_insert_eq |]. split; [lia |].
    rewrite content_prefix. cbn [table p_length p_offset backing].
    unfold content. f_equal. lia.
  - destruct ((p_offset p + p_length p =? length (backing s)) &&
              (length (backing s) + (bits - p_length p) <=? capacity s));
      [| discriminate].
    intros E. injection E as <- <-.
    cbn [table p_length p_offset backing].
    split; [apply lookup_insert_eq |]. split; [lia |].
    rewrite content_prefix. cbn [table p_length p_offset backing].
    unfold content.
    rewrite drop_app_le by lia.
    rewrite take_app_le by (rewrite length_drop; lia).
    f_equal. lia.
Qed.

(** C6: resizing a live partition keeps its first
    [min(old_len, new_len)] bits; the new handle is the table entry and
    is long enough; a shrink moves nothing. *)
Theorem m_resize_preserves_content
    (s s' : Store) (c i : Z) (bits : nat) (p p' : Partition) :
  store_bounded s ->
  table s !! (c, i) = Some p -> p_live p = true ->
  m_resize s c i bits = Done (s', p') ->
  table s' !! (c, i) = Some p' /\
  bits <= p_length p' /\
  take (min (p_length p) bits) (content s' p') =
    take (min (p_length p) bits) (content s p) /\
  (bits <= p_length p ->
   backing s' = backing s /\ p_offset p' = p_offset p /\ p_length p' = bits).
Proof.
  intros Hwf Hp Hlive.
  assert (Hb : p_offset p + p_length p <= length (backing s)).
  { destruct Hwf as [Ht _]. exact (Ht _ _ Hp). }
  destruct (le_lt_dec bits (p_length p)) as [Hle | Hlt].
  - rewrite (m_resize_shrink s c i bits p Hp Hlive Hle).
    intros E. injection E as <- <-.
    cbn [table p_length p_offset backing].
    split; [apply lookup_insert_eq |]. split; [lia |].
    split; [| intros _; repeat split].
    rewrite !content_prefix. cbn [table p_length p_offset backing].
    f_equal. lia.
  - unfold m_resize. rewrite Hp, Hlive. cbn [negb].
    rewrite (proj2 (Nat.leb_gt bits (p_length p)) Hlt).
    destruct (grow_in_place s c i p bits) as [[s1 p1] |] eqn:Eg.
    + intros E. injection E as <- <-.
      destruct (grow_in_place_spec _ _ _ _ _ _ _ Hb Hlt Eg) as (Ht & Hlen & Hcont).
      split; [exact Ht |]. split; [exact Hlen |].
      split; [| intros Hle; lia].
      rewrite Nat.min_l by lia. rewrite Hcont.
      rewrite take_ge by (rewrite content_length; lia). reflexivity.
    + destruct (allocate s bits) as [[s1 [off len]] | |] eqn:Ea;
        [| discriminate | discriminate].
      intros E. injection E as <- <-.
      cbn [table p_length p_offset backing].
      destruct (allocate_spec _ _ _ _ _ Hwf Ea) as (Hlen & Hin & _ & _).
      split; [apply lookup_insert_eq |]. split; [exact Hlen |].
      split; [| intros Hle; lia].
      rewrite Nat.min_l by lia.
      rewrite content_prefix. cbn [table p_length p_offset backing].
      rewrite drop_write_bits by lia.
      rewrite take_app_le by (rewrite content_length; lia).
      f_equal. lia.
Qed.

Lemma example_store_bounded : store_bounded example_store.
Proof.
  split; [| constructor].
  refine (bool_decide_unpack _ _). vm_compute. exact I.
Qed.

Lemma m_resize_preserves_content_witness :
  table example_store_resized !! (1%Z, 1%Z) = Some (mkPartition 1 1 6 6 true) /\
  6 <= p_length (mkPartition 1 1 6 6 true) /\
  take (min (p_length (mkPartition 1 1 0 4 true)) 6)
       (content example_store_resized (mkPartition 1 1 6 6 true)) =
    take (min (p_length (mkPartition 1 1 0 4 true)) 6)
         (content example_store (mkPartition 1 1 0 4 true)) /\
  (6 <= p_length (mkPartition 1 1 0 4 true) ->
   backing example_store_resized = backing example_store /\
   p_offset (mkPartition 1 1 6 6 true) = p_offset (mkPartition 1 1 0 4 true) /\
   p_length (mkPartition 1 1 6 6 true) = 6).
Proof.
  apply (m_resize_preserves_content example_store example_store_resized 1 1 6
           (mkPartition 1 1 0 4 true) (mkPartition 1 1 6 6 true)).
  - split; [| constructor].
    refine (bool_decide_unpack _ _). vm_compute. exact I.
  - reflexivity.
  - reflexivity.
  - vm_compute. reflexivity.
Defined.

(** A resize within the capacity of the backing vector succeeds. *)
Lemma m_resize_within_capacity
    (s : Store) (c i : Z) (bits : nat) (p : Partition) :
  table s !! (c, i) = Some p -> p_live p = true ->
  length (backing s) + bits <= capacity s ->
  exists (s' : Store) (p' : Partition), m_resize s c i bits = Done (s', p').
Proof.
  intros Hp Hlive Hcap. unfold m_resize. rewrite Hp, Hlive. cbn [negb].
  destruct (bits <=? p_length p); [eexists _, _; reflexivity |].
  destruct (grow_in_place s c i p bits) as [[s1 p1] |];
    [eexists _, _; reflexivity |].
  unfold allocate.
  destruct (find_fit bits (free_list s)) as [[off len] |];
    [eexists _, _; reflexivity |].
  rewrite (proj2 (Nat.leb_le _ _) Hcap). eexists _, _; reflexivity.
Qed.

End memory_facts.

(** * Further properties of bit_math.h *)

(** ** Logarithms and powers of two *)

(** X1: for a nonzero word, [log2i] is the floor of the binary logarithm:
    [2^log2i(x) <= x < 2^(log2i(x) + 1)]. *)
Theorem log2i_floor (x : Z) :
  0 < x < 2 ^ 64 -> 2 ^ log2i x <= x < 2 ^ (log2i x + 1).
Proof.
  intros Hx. rewrite log2i_spec by lia.
  rewrite Z.add_1_r. apply Z.log2_spec. lia.
Qed.

Lemma log2i_floor_witness : 2 ^ log2i 1000 <= 1000 < 2 ^ (log2i 1000 + 1).
Proof. apply (log2i_floor 1000). lia. Defined.

(** X2: [sigbits] is monotone, and so are the logarithms that scale it,
    [log2i], [log10i], [lni] and [digits]. *)
Theorem sigbits_monotone (x y : Z) :
  0 <= x <= y -> y < 2 ^ 64 ->
  sigbits x <= sigbits y /\ log2i x <= log2i y /\
  log10i x <= log10i y /\ lni x <= lni y /\ digits x <= digits y.
Proof.
  intros Hxy Hy.
  assert (Hs : sigbits x <= sigbits y).
  { rewrite !sigbits_spec by lia.
    pose proof (Z.log2_le_mono x y ltac:(lia)). lia. }
  pose proof (sigbits_range x ltac:(lia)) as Rx.
  pose proof (sigbits_range y ltac:(lia)) as Ry.
  split; [exact Hs |]. split.
  { rewrite !log2i_spec by lia. apply Z.log2_le_mono. lia. }
  unfold log10i, lni, digits.
  rewrite !(to_udqword_small x), !(to_udqword_small y) by lia.
  rewrite !(to_uqword_small x), !(to_uqword_small y) by lia.
  rewrite !(to_udqword_small (sigbits _)) by lia.
  rewrite !(to_udqword_small (sigbits _ * _)) by lia.
  assert (D1 : sigbits x * 10000 / 33219 <= sigbits y * 10000 / 33219)
    by (apply Z.div_le_mono; lia).
  assert (D2 : sigbits x * 10000000000000000 / 14426950408889634
               <= sigbits y * 10000000000000000 / 14426950408889634)
    by (apply Z.div_le_mono; lia).
  assert (B1 : 0 <= sigbits x * 10000 / 33219) by (apply Z.div_pos; lia).
  assert (B2 : sigbits y * 10000 / 33219 <= 64 * 10000 / 33219)
    by (apply Z.div_le_mono; lia).
  assert (B3 : 0 <= sigbits x * 10000000000000000 / 14426950408889634)
    by (apply Z.div_pos; lia).
  assert (B4 : sigbits y * 10000000000000000 / 14426950408889634
               <= 64 * 10000000000000000 / 14426950408889634)
    by (apply Z.div_le_mono; lia).
  change (64 * 10000 / 33219) with 19 in B2.
  change (64 * 10000000000000000 / 14426950408889634) with 44 in B4.
  rewrite !(to_udqword_small (_ / 33219 + 1)) by lia.
  rewrite !to_uqword_small by lia.
  lia.
Qed.

Lemma sigbits_monotone_witness :
  sigbits 9 <= sigbits 1000 /\ log2i 9 <= log2i 1000 /\
  log10i 9 <= log10i 1000 /\ lni 9 <= lni 1000 /\ digits 9 <= digits 1000.
Proof. apply (sigbits_monotone 9 1000); lia. Defined.

(** X3: [pow2i] and [log2i] are inverse on the exponents below 64, where
    [sigbits(pow2i(e))] is [e + 1]; from 64 on [pow2i] shifts by the
    width or more and is undefined. *)
Theorem pow2i_log2i (e : Z) :
  0 <= e ->
  (e < 64 -> pow2i e = Ok (2 ^ e) /\ log2i (2 ^ e) = e) /\
  (64 <= e -> pow2i e = Undefined).
Proof.
  intros He. split.
  - intros Hlt.
    assert (Hp : 0 < 2 ^ e < 2 ^ 64).
    { split; [apply Z.pow_pos_nonneg; lia | apply Z.pow_lt_mono_r; lia]. }
    split.
    + unfold pow2i. rewrite shl_defined by lia.
      rewrite Z.mul_1_l, to_uqword_small by lia. reflexivity.
    + rewrite log2i_spec by lia. apply Z.log2_pow2. exact He.
  - intros Hge. apply shl_undefined. exact Hge.
Qed.

Lemma pow2i_log2i_witness :
  (10 < 64 -> pow2i 10 = Ok (2 ^ 10) /\ log2i (2 ^ 10) = 10) /\
  (64 <= 10 -> pow2i 10 = Undefined).
Proof. apply (pow2i_log2i 10). lia. Defined.

(** ** Decimal powers, digits and logarithms *)

(** A property checked on every integer below [n]. *)
Lemma forall_below (P : Z -> bool) (n : nat) :
  forallb (fun k : nat => P (Z.of_nat k)) (seq 0 n) = true ->
  forall z : Z, 0 <= z < Z.of_nat n -> P z = true.
Proof.
  intros H z Hz. rewrite forallb_forall in H.
  specialize (H (Z.to_nat z)). rewrite Z2Nat.id in H by lia.
  apply H. apply in_seq. lia.
Qed.

Lemma pow10i_defined (e : Z) : 0 <= e <= 19 -> pow10i e = Ok (10 ^ e).
Proof.
  intros He.
  pose proof (forall_below
    (fun e => match pow10i e with Ok v => v =? 10 ^ e | _ => false end) 20
    ltac:(vm_compute; reflexivity) e ltac:(lia)) as H.
  cbv beta in H. destruct (pow10i e) as [v | |]; try discriminate.
  apply Z.eqb_eq in H. rewrite H. reflexivity.
Qed.

(** X4: the table of [pow10i] holds the powers of ten: [pow10i(e)] is
    [10^e] for every exponent up to 19, a word; from 20 on the index is
    outside the table and the access undefined. *)
Theorem pow10i_table (e : Z) :
  0 <= e ->
  (e <= 19 -> pow10i e = Ok (10 ^ e) /\ 10 ^ e < 2 ^ 64) /\
  (20 <= e -> pow10i e = Undefined).
Proof.
  intros He. split.
  - intros Hle. split; [apply pow10i_defined; lia |].
    apply Z.le_lt_trans with (10 ^ 19); [apply Z.pow_le_mono_r; lia | lia].
  - intros Hge. unfold pow10i, load.
    rewrite (proj2 (Z.ltb_ge e 0) He).
    rewrite lookup_ge_None_2; [reflexivity |].
    change (length pow10) with 20%nat. lia.
Qed.

Lemma pow10i_table_witness :
  (7 <= 19 -> pow10i 7 = Ok (10 ^ 7) /\ 10 ^ 7 < 2 ^ 64) /\
  (20 <= 7 -> pow10i 7 = Undefined).
Proof. apply (pow10i_table 7). lia. Defined.

Lemma log10i_spec (x : Z) :
  0 <= x < 2 ^ 64 -> log10i x = sigbits x * 10000 / 33219.
Proof.
  intros Hx. unfold log10i.
  pose proof (sigbits_range x Hx) as Hs.
  rewrite (to_udqword_small x), (to_uqword_small x) by lia.
  rewrite (to_udqword_small (sigbits x)) by lia.
  rewrite (to_udqword_small (sigbits x * 10000)) by lia.
  assert (0 <= sigbits x * 10000 / 33219) by (apply Z.div_pos; lia).
  assert (sigbits x * 10000 / 33219 <= 64 * 10000 / 33219)
    by (apply Z.div_le_mono; lia).
  apply to_uqword_small. change (64 * 10000 / 33219) with 19 in *. lia.
Qed.

Lemma digits_spec (x : Z) :
  0 <= x < 2 ^ 64 -> digits x = log10i x + 1.
Proof.
  intros Hx. rewrite log10i_spec by exact Hx. unfold digits.
  pose proof (sigbits_range x Hx) as Hs.
  rewrite (to_udqword_small x), (to_uqword_small x) by lia.
  rewrite (to_udqword_small (sigbits x)) by lia.
  rewrite (to_udqword_small (sigbits x * 10000)) by lia.
  assert (0 <= sigbits x * 10000 / 33219) by (apply Z.div_pos; lia).
  assert (sigbits x * 10000 / 33219 <= 64 * 10000 / 33219)
    by (apply Z.div_le_mono; lia).
  change (64 * 10000 / 33219) with 19 in *.
  rewrite to_udqword_small by lia. apply to_uqword_small. lia.
Qed.

(** The scaled bit count against the powers of ten, for each of the 64
    bit counts. *)
Lemma scaled_sigbits_bounds (s : Z) :
  1 <= s <= 64 ->
  2 ^ s <= 10 ^ (s * 10000 / 33219 + 1) /\
  10 ^ (s * 10000 / 33219) <= 10 * 2 ^ (s - 1).
Proof.
  intros Hs.
  pose proof (forall_below
    (fun s => (s =? 0) ||
              ((2 ^ s <=? 10 ^ (s * 10000 / 33219 + 1)) &&
               (10 ^ (s * 10000 / 33219) <=? 10 * 2 ^ (s - 1)))) 65
    ltac:(vm_compute; reflexivity) s ltac:(lia)) as H.
  cbv beta in H. apply orb_prop in H as [H | H].
  - apply Z.eqb_eq in H. lia.
  - apply andb_prop in H as [H1 H2].
    apply Z.leb_le in H1. apply Z.leb_le in H2. split; assumption.
Qed.

Lemma sigbits_bracket (x : Z) :
  0 < x < 2 ^ 64 -> 2 ^ (sigbits x - 1) <= x < 2 ^ sigbits x.
Proof.
  intros Hx. rewrite sigbits_spec by lia.
  replace (Z.log2 x + 1 - 1) with (Z.log2 x) by lia.
  rewrite Z.add_1_r. apply Z.log2_spec. lia.
Qed.

(** X5: [digits] is the number of decimal digits of a nonzero word or one
    more than it: [x < 10^digits(x) <= 100 * x]. *)
Theorem digits_bounds (x : Z) :
  0 < x < 2 ^ 64 -> x < 10 ^ digits x /\ 10 ^ digits x <= 100 * x.
Proof.
  intros Hx. rewrite digits_spec, log10i_spec by lia.
  pose proof (sigbits_range x ltac:(lia)) as Hs.
  pose proof (sigbits_bracket x Hx) as Hb.
  destruct (scaled_sigbits_bounds (sigbits x) Hs) as [H1 H2].
  assert (0 <= sigbits x * 10000 / 33219) by (apply Z.div_pos; lia).
  split; [lia |].
  rewrite Z.add_1_r, Z.pow_succ_r by assumption. lia.
Qed.

Lemma digits_bounds_witness : 12345 < 10 ^ digits 12345 /\ 10 ^ digits 12345 <= 100 * 12345.
Proof. apply (digits_bounds 12345). lia. Defined.

(** X6: [log10i] is the floor of the decimal logarithm of a nonzero word
    or one more than it: [10^log10i(x) <= 10 * x] and
    [x < 10^(log10i(x) + 1)]. *)
Theorem log10i_bounds (x : Z) :
  0 < x < 2 ^ 64 -> 10 ^ log10i x <= 10 * x /\ x < 10 ^ (log10i x + 1).
Proof.
  intros Hx. rewrite log10i_spec by lia.
  pose proof (sigbits_range x ltac:(lia)) as Hs.
  pose proof (sigbits_bracket x Hx) as Hb.
  destruct (scaled_sigbits_bounds (sigbits x) Hs) as [H1 H2].
  split; lia.
Qed.

Lemma log10i_bounds_witness :
  10 ^ log10i 12345 <= 10 * 12345 /\ 12345 < 10 ^ (log10i 12345 + 1).
Proof. apply (log10i_bounds 12345). lia. Defined.

(** X7: [logni] divides by [log10i(base)], which is zero for every base
    below 8: there the call is undefined, for the bases 2 and 3 among
    them; from 8 on it is the quotient of the two logarithms. *)
Theorem logni_small_base (base x : Z) :
  0 <= base < 2 ^ 64 -> 0 <= x < 2 ^ 64 ->
  (base < 8 -> logni base x = Undefined) /\
  (8 <= base -> logni base x = Ok (log10i x / log10i base) /\ 1 <= log10i base).
Proof.
  intros Hb Hx. unfold logni, udiv.
  rewrite (log10i_spec base) by exact Hb.
  pose proof (sigbits_range base Hb) as Hs.
  split; intros H.
  - assert (Hs3 : sigbits base <= 3).
    { destruct (Z.eq_dec base 0) as [-> | Hnz]; [change (sigbits 0) with 1; lia |].
      rewrite sigbits_spec by lia.
      assert (Z.log2 base < 3) by (apply Z.log2_lt_pow2; lia). lia. }
    assert (E : sigbits base * 10000 / 33219 = 0)
      by (apply Z.div_small; lia).
    rewrite E. reflexivity.
  - assert (Hs4 : 4 <= sigbits base).
    { rewrite sigbits_spec by lia.
      assert (3 <= Z.log2 base) by (apply Z.log2_le_pow2; lia). lia. }
    assert (E : 1 <= sigbits base * 10000 / 33219)
      by (apply Z.div_le_lower_bound; lia).
    destruct (Z.eqb_spec (sigbits base * 10000 / 33219) 0) as [E0 | _]; [lia |].
    split; [reflexivity | exact E].
Qed.

Lemma logni_small_base_witness :
  (2 < 8 -> logni 2 1000 = Undefined) /\
  (8 <= 2 -> logni 2 1000 = Ok (log10i 1000 / log10i 2) /\ 1 <= log10i 2).
Proof. apply (logni_small_base 2 1000); lia. Defined.

Lemma get_digit10i_defined (value d : Z) :
  0 <= d <= 19 -> get_digit10i value d = Ok (value / 10 ^ d mod 10).
Proof.
  intros Hd. unfold get_digit10i. rewrite pow10i_defined by exact Hd.
  cbn [mbind result_bind]. unfold udiv.
  assert (0 < 10 ^ d) by (apply Z.pow_pos_nonneg; lia).
  destruct (Z.eqb_spec (10 ^ d) 0) as [E | _]; [lia |]. reflexivity.
Qed.

Lemma decimal_value_seq (v : Z) (n k : nat) :
  decimal_value (map (fun d : nat => v / 10 ^ Z.of_nat d mod 10) (seq k n)) =
  (v / 10 ^ Z.of_nat k) mod 10 ^ Z.of_nat n.
Proof.
  revert k. induction n as [| n IH]; intros k.
  - cbn. rewrite Z.mod_1_r. reflexivity.
  - cbn [seq map decimal_value foldr]. fold (decimal_value
      (map (fun d : nat => v / 10 ^ Z.of_nat d mod 10) (seq (S k) n))).
    rewrite IH. rewrite !Nat2Z.inj_succ, !Z.pow_succ_r by lia.
    assert (0 < 10 ^ Z.of_nat n) by (apply Z.pow_pos_nonneg; lia).
    assert (0 < 10 ^ Z.of_nat k) by (apply Z.pow_pos_nonneg; lia).
    rewrite (Z.rem_mul_r _ 10 (10 ^ Z.of_nat n)) by lia.
    rewrite (Z.mul_comm 10 (10 ^ Z.of_nat k)), <- Z.div_div by lia.
    reflexivity.
Qed.

(** X8: the twenty decimal digits that [get_digit10i] extracts from a
    word are all defined, lie between 0 and 9, and denote the word. *)
Theorem get_digit10i_decimal (value : Z) :
  0 <= value < 2 ^ 64 ->
  exists ds : list Z,
    map (fun d : nat => get_digit10i value (Z.of_nat d)) (seq 0 20) = map Ok ds /\
    Forall (fun d => 0 <= d <= 9) ds /\
    decimal_value ds = value.
Proof.
  intros Hv.
  exists (map (fun d : nat => value / 10 ^ Z.of_nat d mod 10) (seq 0 20)).
  split; [| split].
  - rewrite (map_map _ Ok). apply map_ext_in. intros d Hd. apply in_seq in Hd.
    apply get_digit10i_defined. lia.
  - apply Forall_forall. intros d Hd. apply list_elem_of_In in Hd.
    apply in_map_iff in Hd as (k & <- & _).
    pose proof (Z.mod_pos_bound (value / 10 ^ Z.of_nat k) 10 ltac:(lia)). lia.
  - rewrite decimal_value_seq. change (10 ^ Z.of_nat 0) with 1.
    rewrite Z.div_1_r. apply Z.mod_small.
    change (10 ^ Z.of_nat 20) with (10 ^ 20). lia.
Qed.

Lemma get_digit10i_decimal_witness :
  exists ds : list Z,
    map (fun d : nat => get_digit10i 2021 (Z.of_nat d)) (seq 0 20) = map Ok ds /\
    Forall (fun d => 0 <= d <= 9) ds /\
    decimal_value ds = 2021.
Proof. apply (get_digit10i_decimal 2021). lia. Defined.

(** ** Integer power: [powni] *)

Lemma powni_loop_unfold (base exponent acc : Z) :
  powni_loop base exponent acc =
  if 0 <? exponent
  then powni_loop (to_uqword (base * base)) (Z.shiftr exponent 1)
         (if negb (Z.land exponent 1 =? 0) then to_uqword (acc * base) else acc)
  else acc.
Proof.
  rewrite powni_loop_equation_1.
  destruct (inspect _) as [c e].
  destruct c; cbn; rewrite e; reflexivity.
Qed.

Lemma powni_loop_spec (e : Z) :
  0 <= e -> forall b r : Z, 0 <= r < 2 ^ 64 ->
  powni_loop b e r = (r * b ^ e) mod 2 ^ 64.
Proof.
  intros He. generalize He. pattern e. apply Z_lt_induction; [| exact He].
  clear e He. intros e IH He b r Hr.
  rewrite powni_loop_unfold.
  destruct (Z.ltb_spec 0 e) as [Hpos | Hzero].
  - rewrite Z.shiftr_div_pow2 by lia. change (2 ^ 1) with 2.
    change 1 with (Z.ones 1) at 1. rewrite Z.land_ones by lia.
    change (2 ^ 1) with 2.
    pose proof (Z.div_mod e 2 ltac:(lia)) as Hdm.
    pose proof (Z.mod_pos_bound e 2 ltac:(lia)) as Hm.
    assert (Hq : 0 <= e / 2 < e)
      by (split; [apply Z.div_pos; lia | apply Z.div_lt; lia]).
    assert (Hsq : ((b * b) mod 2 ^ 64) ^ (e / 2) mod 2 ^ 64
                  = b ^ (2 * (e / 2)) mod 2 ^ 64).
    { rewrite <- Zpower_mod by lia. rewrite Z.pow_mul_r by lia.
      rewrite Z.pow_2_r. reflexivity. }
    unfold to_uqword.
    destruct (Z.eqb_spec (e mod 2) 0) as [E0 | E1]; cbn [negb].
    + rewrite IH by lia.
      rewrite Z.mul_mod, Hsq, <- Z.mul_mod by lia.
      f_equal. f_equal. f_equal. lia.
    + rewrite IH by (try apply Z.mod_pos_bound; lia).
      rewrite Z.mul_mod, Hsq, Z.mod_mod, <- Z.mul_mod by lia.
      assert (Hpow : b ^ e = b ^ (2 * (e / 2)) * b).
      { replace (b ^ e) with (b ^ (2 * (e / 2) + 1)) by (f_equal; lia).
        rewrite Z.pow_add_r, Z.pow_1_r by lia. reflexivity. }
      rewrite Hpow. f_equal. ring.
  - replace e with 0 by lia. rewrite Z.pow_0_r, Z.mul_1_r.
    symmetry. apply Z.mod_small. exact Hr.
Qed.

(** X9: [powni(base, exponent)] is the power [base^exponent] reduced
    modulo [2^64], for every exponent, zero included. *)
Theorem powni_pow_mod (base exponent : Z) :
  0 <= exponent -> powni base exponent = base ^ exponent mod 2 ^ 64.
Proof.
  intros He. unfold powni. rewrite powni_loop_spec by lia.
  rewrite Z.mul_1_l. reflexivity.
Qed.

Lemma powni_pow_mod_witness : powni 3 41 = 3 ^ 41 mod 2 ^ 64.
Proof. apply (powni_pow_mod 3 41). lia. Defined.

(** ** Single bits of a word *)

Lemma testbit_to_uqword (z n : Z) :
  0 <= n -> Z.testbit (to_uqword z) n = (n <? 64) && Z.testbit z n.
Proof.
  intros Hn. unfold to_uqword.
  destruct (Z.ltb_spec n 64) as [Hlt | Hge]; cbn [andb].
  - apply Z.mod_pow2_bits_low. exact Hlt.
  - apply Z.mod_pow2_bits_high. lia.
Qed.

Lemma word_high_bits (x n : Z) :
  0 <= x < 2 ^ 64 -> 64 <= n -> Z.testbit x n = false.
Proof.
  intros Hx Hn. rewrite <- (to_uqword_small x Hx), testbit_to_uqword by lia.
  rewrite (proj2 (Z.ltb_ge n 64) Hn). reflexivity.
Qed.

Lemma shl_one (bit : Z) : 0 <= bit < 64 -> shl 1 bit = Ok (2 ^ bit).
Proof.
  intros Hb. rewrite shl_defined, Z.mul_1_l by exact Hb.
  rewrite to_uqword_small; [reflexivity |].
  split; [apply Z.pow_nonneg; lia | apply Z.pow_lt_mono_r; lia].
Qed.

Lemma get_bit_testbit (x bit : Z) :
  0 <= bit < 64 -> get_bit x bit = Ok (Z.b2z (Z.testbit x bit)).
Proof.
  intros Hb. unfold get_bit. rewrite shr_defined by exact Hb.
  cbn [mbind result_bind].
  rewrite <- Z.shiftr_div_pow2, land_shiftr_1 by lia. reflexivity.
Qed.

Lemma set_bit_testbit (x bit v n : Z) :
  0 <= bit < 64 -> 0 <= n ->
  exists x' : Z,
    set_bit x bit v = Ok x' /\
    Z.testbit x' n =
      if n =? bit then Z.testbit (- v) bit else Z.testbit x n.
Proof.
  intros Hb Hn. unfold set_bit. rewrite shl_one by exact Hb.
  eexists; split; [reflexivity |].
  rewrite Z.lxor_spec, Z.land_spec, Z.lxor_spec.
  rewrite Z.pow2_bits_eqb, (Z.eqb_sym bit n) by lia.
  destruct (Z.eqb_spec n bit) as [-> | Hne].
  - rewrite testbit_to_uqword by lia.
    rewrite (proj2 (Z.ltb_lt bit 64)) by lia. cbn [andb].
    destruct (Z.testbit x bit), (Z.testbit (- v) bit); reflexivity.
  - rewrite andb_false_r, xorb_false_r. reflexivity.
Qed.

(** X10: [get_bit] after [set_bit] at the same bit below 64 returns the
    value set, for the values 0 and 1. *)
Theorem get_bit_set_bit (x bit v : Z) :
  0 <= bit < 64 -> v = 0 \/ v = 1 ->
  exists x' : Z, set_bit x bit v = Ok x' /\ get_bit x' bit = Ok v.
Proof.
  intros Hb Hv.
  destruct (set_bit_testbit x bit v bit Hb ltac:(lia)) as (x' & E & T).
  exists x'. split; [exact E |].
  rewrite get_bit_testbit, T, Z.eqb_refl by exact Hb.
  destruct Hv as [-> | ->].
  - change (- 0) with 0. rewrite Z.bits_0. reflexivity.
  - change (- (1)) with (-1). rewrite Z.bits_m1 by lia. reflexivity.
Qed.

Lemma get_bit_set_bit_witness :
  exists x' : Z, set_bit 5 1 1 = Ok x' /\ get_bit x' 1 = Ok 1.
Proof. apply (get_bit_set_bit 5 1 1); [lia | right; reflexivity]. Defined.

(** X11: [set_bit] changes no other bit, whatever the value passed: every
    other bit reads as before, and a word stays a word. *)
Theorem set_bit_frame (x bit v : Z) :
  0 <= x < 2 ^ 64 -> 0 <= bit < 64 ->
  exists x' : Z,
    set_bit x bit v = Ok x' /\ 0 <= x' < 2 ^ 64 /\
    forall n : Z, 0 <= n < 64 -> n <> bit -> get_bit x' n = get_bit x n.
Proof.
  intros Hx Hb.
  destruct (set_bit_testbit x bit v 0 Hb ltac:(lia)) as (x' & E & _).
  exists x'. split; [exact E |].
  assert (T : forall n, 0 <= n ->
              Z.testbit x' n =
              if n =? bit then Z.testbit (- v) bit else Z.testbit x n).
  { intros n Hn.
    destruct (set_bit_testbit x bit v n Hb Hn) as (x'' & E' & T).
    rewrite E in E'. injection E' as <-. exact T. }
  split.
  - assert (Hnn : 0 <= x').
    { apply Z.bits_iff_nonneg_ex. exists 64. intros m Hm.
      rewrite T by lia.
      destruct (Z.eqb_spec m bit); [lia | apply word_high_bits; lia]. }
    split; [exact Hnn |].
    destruct (Z.eq_dec x' 0) as [-> | Hnz]; [lia |].
    apply Z.log2_lt_pow2; [lia |].
    apply Z.nle_gt. intros Hle.
    pose proof (Z.bit_log2 x' ltac:(lia)) as Hbit.
    rewrite T in Hbit by lia.
    destruct (Z.eqb_spec (Z.log2 x') bit); [lia |].
    rewrite word_high_bits in Hbit by lia. discriminate.
  - intros n Hn Hne. rewrite !get_bit_testbit, T by lia.
    destruct (Z.eqb_spec n bit); [contradiction | reflexivity].
Qed.

Lemma set_bit_frame_witness :
  exists x' : Z,
    set_bit 5 1 1 = Ok x' /\ 0 <= x' < 2 ^ 64 /\
    forall n : Z, 0 <= n < 64 -> n <> 1 -> get_bit x' n = get_bit 5 n.
Proof. apply (set_bit_frame 5 1 1); lia. Defined.

(** X12: on a word, [clear_bit] is [set_bit] with the value 0, and the
    bit reads 0 afterwards. *)
Theorem clear_bit_set_bit_zero (x bit : Z) :
  0 <= x < 2 ^ 64 -> 0 <= bit < 64 ->
  exists x' : Z,
    clear_bit x bit = Ok x' /\ set_bit x bit 0 = Ok x' /\ get_bit x' bit = Ok 0.
Proof.
  intros Hx Hb. unfold clear_bit, set_bit. rewrite shl_one by exact Hb.
  cbn [mbind result_bind]. change (to_uqword (- 0)) with 0.
  rewrite Z.lxor_0_l.
  assert (E : Z.land x (not_uqword (2 ^ bit)) = Z.lxor x (Z.land x (2 ^ bit))).
  { apply Z.bits_inj'. intros n Hn.
    rewrite Z.land_spec, Z.lxor_spec, Z.land_spec.
    unfold not_uqword. rewrite testbit_to_uqword, Z.lnot_spec by lia.
    destruct (Z.ltb_spec n 64) as [Hlt | Hge].
    - destruct (Z.testbit x n), (Z.testbit (2 ^ bit) n); reflexivity.
    - rewrite (word_high_bits x n) by lia. reflexivity. }
  eexists; split; [reflexivity |]. split; [rewrite E; reflexivity |].
  rewrite get_bit_testbit, Z.land_spec by exact Hb.
  unfold not_uqword. rewrite testbit_to_uqword, Z.lnot_spec by lia.
  rewrite Z.pow2_bits_true by lia.
  rewrite !andb_false_r. reflexivity.
Qed.

Lemma clear_bit_set_bit_zero_witness :
  exists x' : Z,
    clear_bit 7 1 = Ok x' /\ set_bit 7 1 0 = Ok x' /\ get_bit x' 1 = Ok 0.
Proof. apply (clear_bit_set_bit_zero 7 1); lia. Defined.

(** X13: [toggle_bit] flips the bit it addresses and is its own inverse. *)
Theorem toggle_bit_involutive (x bit : Z) :
  0 <= bit < 64 ->
  exists x' b : Z,
    toggle_bit x bit = Ok x' /\ toggle_bit x' bit = Ok x /\
    get_bit x bit = Ok b /\ get_bit x' bit = Ok (1 - b).
Proof.
  intros Hb. unfold toggle_bit. rewrite shl_one by exact Hb.
  cbn [mbind result_bind].
  exists (Z.lxor x (2 ^ bit)), (Z.b2z (Z.testbit x bit)).
  split; [reflexivity |]. split.
  - rewrite Z.lxor_assoc, Z.lxor_nilpotent, Z.lxor_0_r. reflexivity.
  - rewrite !get_bit_testbit by exact Hb. split; [reflexivity |].
    rewrite Z.lxor_spec, Z.pow2_bits_true by lia.
    destruct (Z.testbit x bit); reflexivity.
Qed.

Lemma toggle_bit_involutive_witness :
  exists x' b : Z,
    toggle_bit 5 2 = Ok x' /\ toggle_bit x' 2 = Ok 5 /\
    get_bit 5 2 = Ok b /\ get_bit x' 2 = Ok (1 - b).
Proof. apply (toggle_bit_involutive 5 2). lia. Defined.

(** X14: the bit index is not reduced modulo the width: from 64 on, which
    the 8-bit parameter admits, the single-bit accessors shift by the
    width or more and are undefined. *)
Theorem bit_accessors_undefined (x bit v : Z) :
  64 <= bit ->
  get_bit x bit = Undefined /\ set_bit x bit v = Undefined /\
  clear_bit x bit = Undefined /\ toggle_bit x bit = Undefined /\
  get_digit2i x bit = Undefined.
Proof.
  intros Hb.
  unfold get_bit, set_bit, clear_bit, toggle_bit, get_digit2i.
  rewrite shr_undefined, shl_undefined by exact Hb.
  repeat split; reflexivity.
Qed.

Lemma bit_accessors_undefined_witness :
  get_bit 1 64 = Undefined /\ set_bit 1 64 1 = Undefined /\
  clear_bit 1 64 = Undefined /\ toggle_bit 1 64 = Undefined /\
  get_digit2i 1 64 = Undefined.
Proof. apply (bit_accessors_undefined 1 64 1). lia. Defined.

(** ** Bit arrays and single bits *)

(** X15: on an in-range offset the array accessors are the single-bit
    accessors applied to word [i / 64] at bit [i mod 64]: [get_bita]
    reads what [get_bit] reads, and [set_bita] stores what [set_bit]
    returns for the low bit of the value. *)
Theorem bita_as_bit (arr : list Z) (words i v : Z) :
  Z.of_nat (length arr) = words -> 0 <= i < words * word_bits ->
  exists w w' : Z,
    arr !! Z.to_nat (i / word_bits) = Some w /\
    get_bita arr words i = get_bit w (i mod word_bits) /\
    set_bit w (i mod word_bits) (Z.land v 1) = Ok w' /\
    set_bita arr words i v = Ok (<[Z.to_nat (i / word_bits) := w']> arr).
Proof.
  intros Hlen Hi.
  destruct (get_bita_in_range arr words i Hlen Hi) as (w & Hw & Eg).
  destruct (set_bita_in_range arr words i v Hlen Hi) as (w2 & Hw2 & Es).
  rewrite Hw in Hw2. injection Hw2 as <-.
  assert (Hm : 0 <= i mod word_bits < 64)
    by exact (Z.mod_pos_bound i 64 eq_refl).
  exists w, (set_bita_word w i v).
  split; [exact Hw |].
  split; [rewrite Eg, get_bit_testbit by exact Hm; reflexivity |].
  split; [| exact Es].
  unfold set_bit, set_bita_word. rewrite shl_one by exact Hm.
  cbn [mbind result_bind]. f_equal.
  apply Z.bits_inj'. intros n Hn.
  rewrite !Z.lxor_spec, !Z.land_spec, !Z.lxor_spec.
  rewrite Z.pow2_bits_eqb by lia.
  destruct (Z.eqb_spec (i mod word_bits) n) as [<- | Hne].
  - rewrite Z.mul_pow2_bits, Z.sub_diag, testbit_to_uqword by lia.
    rewrite (proj2 (Z.ltb_lt (i mod word_bits) 64)) by lia. cbn [andb].
    pose proof (land_1_range v) as Hr.
    assert (C : Z.land v 1 = 0 \/ Z.land v 1 = 1) by lia.
    destruct C as [-> | ->].
    + change (- 0) with 0. rewrite !Z.bits_0.
      destruct (Z.testbit w (i mod word_bits)); reflexivity.
    + change (- (1)) with (-1). rewrite Z.bits_m1 by lia.
      change (Z.testbit 1 0) with true.
      destruct (Z.testbit w (i mod word_bits)); reflexivity.
  - rewrite !andb_false_r. reflexivity.
Qed.

Lemma bita_as_bit_witness :
  exists w w' : Z,
    [5; 6] !! Z.to_nat (65 / word_bits) = Some w /\
    get_bita [5; 6] 2 65 = get_bit w (65 mod word_bits) /\
    set_bit w (65 mod word_bits) (Z.land 0 1) = Ok w' /\
    set_bita [5; 6] 2 65 0 = Ok (<[Z.to_nat (65 / word_bits) := w']> [5; 6]).
Proof.
  apply (bita_as_bit [5; 6] 2 65 0);
    [reflexivity | change word_bits with 64; lia].
Defined.

(** X16: [set_bita] at one in-range offset leaves what [get_bita] reads
    at every other in-range offset. *)
Theorem get_bita_set_bita_other (arr : list Z) (words i j v : Z) :
  Z.of_nat (length arr) = words ->
  0 <= i < words * word_bits -> 0 <= j < words * word_bits -> i <> j ->
  exists arr' : list Z,
    set_bita arr words i v = Ok arr' /\
    get_bita arr' words j = get_bita arr words j.
Proof.
  intros Hlen Hi Hj Hne.
  destruct (set_bita_in_range arr words i v Hlen Hi) as (w & Hw & Es).
  eexists; split; [exact Es |].
  set (k := Z.to_nat (i / word_bits)) in *.
  assert (Hk : (k < length arr)%nat) by (eapply lookup_lt_Some; exact Hw).
  destruct (get_bita_in_range arr words j Hlen Hj) as (wj & Hwj & ->).
  destruct (get_bita_in_range (<[k := set_bita_word w i v]> arr) words j)
    as (wj' & Hwj' & ->); [rewrite length_insert; exact Hlen | exact Hj |].
  f_equal. f_equal.
  pose proof (Z.mod_pos_bound j word_bits ltac:(reflexivity)) as Hm.
  destruct (Nat.eq_dec (Z.to_nat (j / word_bits)) k) as [Ek | Nk].
  - rewrite Ek in Hwj, Hwj'.
    rewrite list_lookup_insert_eq in Hwj' by exact Hk.
    injection Hwj' as <-. rewrite Hw in Hwj. injection Hwj as <-.
    rewrite set_bita_word_testbit by lia.
    destruct (Z.eqb_spec (j mod word_bits) (i mod word_bits)) as [Em | _];
      [| reflexivity].
    exfalso. apply Hne. unfold k in Ek.
    assert (0 <= i / word_bits) by (apply Z.div_pos; [lia | reflexivity]).
    assert (0 <= j / word_bits) by (apply Z.div_pos; [lia | reflexivity]).
    rewrite (Z.div_mod i word_bits), (Z.div_mod j word_bits) by discriminate.
    rewrite Em. f_equal. f_equal. lia.
  - rewrite list_lookup_insert_ne in Hwj' by congruence.
    rewrite Hwj in Hwj'. injection Hwj' as <-. reflexivity.
Qed.

Lemma get_bita_set_bita_other_witness :
  exists arr' : list Z,
    set_bita [5; 6] 2 65 0 = Ok arr' /\
    get_bita arr' 2 66 = get_bita [5; 6] 2 66.
Proof.
  apply (get_bita_set_bita_other [5; 6] 2 65 66 0);
    [reflexivity | change word_bits with 64; lia
     | change word_bits with 64; lia | lia].
Defined.

(** ** The portable bit counts *)

Lemma trailing_zeros_spec (w : nat) (i x : Z) :
  0 <= i ->
  0 <= trailing_zeros w i x <= Z.of_nat w /\
  (forall j : Z, i <= j < i + trailing_zeros w i x -> Z.testbit x j = false) /\
  (trailing_zeros w i x < Z.of_nat w ->
   Z.testbit x (i + trailing_zeros w i x) = true).
Proof.
  revert i. induction w as [| w IH]; intros i Hi; cbn [trailing_zeros].
  - split; [lia | split]; [intros j Hj; lia | intros Hlt; cbn in Hlt; lia].
  - destruct (Z.testbit x i) eqn:Eb.
    + split; [lia | split].
      * intros j Hj. lia.
      * intros _. rewrite Z.add_0_r. exact Eb.
    + destruct (IH (i + 1) ltac:(lia)) as (R & L & T).
      split; [lia | split].
      * intros j Hj. destruct (Z.eq_dec j i) as [-> | Hne]; [exact Eb |].
        apply L. lia.
      * intros Hlt.
        replace (i + (1 + trailing_zeros w (i + 1) x))
          with (i + 1 + trailing_zeros w (i + 1) x) by lia.
        apply T. lia.
Qed.

(** The loop of [cnttz] and [ones], started on the complement of [x]
    with [w] bits to go, counts the zero bits of [x] from bit [i] up to
    the first set bit. *)
Lemma count_loop_trailing (x : Z) (w : nat) (i z : Z) :
  0 <= i -> i + Z.of_nat w = 64 -> 0 <= z -> z + Z.of_nat w <= 255 ->
  count_loop (not_uqword x) i z = z + trailing_zeros w i x.
Proof.
  revert i z. induction w as [| w IH]; intros i z Hi Hw Hz Hb;
    rewrite count_loop_unfold; change bitwidth_uqword with 64.
  - rewrite (proj2 (Z.ltb_ge i 64)) by lia. cbn. lia.
  - rewrite (proj2 (Z.ltb_lt i 64)) by lia. cbn [andb trailing_zeros].
    rewrite land_shiftr_1, not_uqword_testbit by lia.
    destruct (Z.testbit x i); cbn [negb Z.b2z].
    + change (to_ubyte 0 =? 0) with true. cbn. lia.
    + change (to_ubyte 1) with 1. change (1 =? 0) with false. cbn [negb].
      rewrite (to_uqword_small (i + 1)) by lia.
      unfold to_ubyte at 1. rewrite Z.mod_small by lia.
      rewrite IH by lia. lia.
Qed.

Lemma cnttz_portable (x : Z) :
  cnttz ARCH_OTHER x = trailing_zeros 64 0 x.
Proof.
  unfold cnttz. rewrite (count_loop_trailing x 64 0 0) by lia. lia.
Qed.

Lemma word_zero_bits (x : Z) :
  0 <= x < 2 ^ 64 ->
  (forall j : Z, 0 <= j < 64 -> Z.testbit x j = false) -> x = 0.
Proof.
  intros Hx H. apply Z.bits_inj'. intros n Hn. rewrite Z.bits_0.
  destruct (Z_lt_le_dec n 64); [apply H; lia | apply word_high_bits; lia].
Qed.

(** X17: the portable [cnttz] returns the number of trailing zero bits:
    every bit below the count is 0 and, unless the word is zero, the bit
    at the count is 1; for the zero word the count is 64. *)
Theorem cnttz_portable_trailing (x : Z) :
  0 <= x < 2 ^ 64 ->
  (forall j : Z, 0 <= j < cnttz ARCH_OTHER x -> Z.testbit x j = false) /\
  (x <> 0 -> cnttz ARCH_OTHER x < 64 /\ Z.testbit x (cnttz ARCH_OTHER x) = true) /\
  (x = 0 -> cnttz ARCH_OTHER x = 64).
Proof.
  intros Hx. rewrite cnttz_portable.
  destruct (trailing_zeros_spec 64 0 x ltac:(lia)) as (R & L & T).
  split; [intros j Hj; apply L; lia |]. split.
  - intros Hnz.
    assert (Hlt : trailing_zeros 64 0 x < 64).
    { apply Z.nle_gt. intros Hge. apply Hnz.
      apply word_zero_bits; [exact Hx |]. intros j Hj. apply L. lia. }
    split; [exact Hlt |]. apply (T Hlt).
  - intros ->. reflexivity.
Qed.

Lemma cnttz_portable_trailing_witness :
  (forall j : Z, 0 <= j < cnttz ARCH_OTHER 40 -> Z.testbit 40 j = false) /\
  (40 <> 0 -> cnttz ARCH_OTHER 40 < 64 /\ Z.testbit 40 (cnttz ARCH_OTHER 40) = true) /\
  (40 = 0 -> cnttz ARCH_OTHER 40 = 64).
Proof. apply (cnttz_portable_trailing 40). lia. Defined.

(** X18: the portable branch of [ones] is the loop of [cnttz]: what it
    returns is the position of the lowest set bit, 0 for every odd word
    and 64 for the zero word, not the number of set bits. *)
Theorem ones_portable_lowest_bit (popcnt : Z -> Z) (x : Z) :
  0 <= x < 2 ^ 64 ->
  (forall j : Z, 0 <= j < ones popcnt ARCH_OTHER x -> Z.testbit x j = false) /\
  (x <> 0 -> Z.testbit x (ones popcnt ARCH_OTHER x) = true) /\
  (Z.odd x = true -> ones popcnt ARCH_OTHER x = 0) /\
  (x = 0 -> ones popcnt ARCH_OTHER x = 64).
Proof.
  intros Hx.
  assert (E : ones popcnt ARCH_OTHER x = trailing_zeros 64 0 x).
  { unfold ones. rewrite (count_loop_trailing x 64 0 0) by lia. lia. }
  rewrite E.
  destruct (trailing_zeros_spec 64 0 x ltac:(lia)) as (R & L & T).
  split; [intros j Hj; apply L; lia |]. split; [| split].
  - intros Hnz. apply T.
    apply Z.nle_gt. intros Hge. apply Hnz.
    apply word_zero_bits; [exact Hx |]. intros j Hj. apply L. lia.
  - intros Hodd. rewrite <- Z.bit0_odd in Hodd.
    cbn [trailing_zeros]. rewrite Hodd. reflexivity.
  - intros ->. reflexivity.
Qed.

Lemma ones_portable_lowest_bit_witness :
  (forall j : Z, 0 <= j < ones (fun _ => 0) ARCH_OTHER 7 -> Z.testbit 7 j = false) /\
  (7 <> 0 -> Z.testbit 7 (ones (fun _ => 0) ARCH_OTHER 7) = true) /\
  (Z.odd 7 = true -> ones (fun _ => 0) ARCH_OTHER 7 = 0) /\
  (7 = 0 -> ones (fun _ => 0) ARCH_OTHER 7 = 64).
Proof. apply (ones_portable_lowest_bit (fun _ => 0) 7). lia. Defined.

(** X19: the portable [cntlz] looks at the top bit only: it returns 1 for
    every word below [2^63], the zero word included, and 0 for the
    others. *)
Theorem cntlz_portable_top_bit (x : Z) :
  0 <= x < 2 ^ 64 ->
  cntlz ARCH_OTHER x = if x <? 2 ^ 63 then 1 else 0.
Proof.
  intros Hx. rewrite cntlz_portable.
  rewrite (testbit_top x 63) by lia.
  destruct (Z.leb_spec (2 ^ 63) x), (Z.ltb_spec x (2 ^ 63)); try lia; reflexivity.
Qed.

Lemma cntlz_portable_top_bit_witness :
  cntlz ARCH_OTHER 1 = if 1 <? 2 ^ 63 then 1 else 0.
Proof. apply (cntlz_portable_top_bit 1). lia. Defined.

(** ** Masks *)

(** X20: the portable [zero_high_bits] keeps the low [index] bits of the
    word for every index from 1 to 64; for the index 0 it shifts by 64,
    and for an index above 64 by a wrapped count: both are undefined. *)
Theorem zero_high_bits_portable (bzhi : Z -> Z -> Z -> result Z) (src index : Z) :
  0 <= src < 2 ^ 64 -> 0 <= index < 2 ^ 64 ->
  (1 <= index <= 64 ->
   zero_high_bits bzhi ARCH_OTHER src index = Ok (src mod 2 ^ index)) /\
  (index = 0 \/ 64 < index ->
   zero_high_bits bzhi ARCH_OTHER src index = Undefined).
Proof.
  intros Hs Hi. unfold zero_high_bits. split.
  - intros Hr. rewrite (to_uqword_small (64 - index)) by lia.
    rewrite shl_defined by lia. cbn [mbind result_bind].
    rewrite shr_defined by lia. f_equal.
    assert (Hk : 0 < 2 ^ (64 - index)) by (apply Z.pow_pos_nonneg; lia).
    assert (Hp : 0 < 2 ^ index) by (apply Z.pow_pos_nonneg; lia).
    unfold to_uqword.
    replace (2 ^ 64) with (2 ^ index * 2 ^ (64 - index))
      by (rewrite <- Z.pow_add_r by lia; f_equal; lia).
    rewrite Z.mul_mod_distr_r by lia.
    apply Z.div_mul. lia.
  - intros Hr.
    assert (Hc : 64 <= to_uqword (64 - index)).
    { destruct Hr as [-> | Hgt]; [reflexivity |].
      unfold to_uqword.
      replace ((64 - index) mod 2 ^ 64) with (2 ^ 64 + 64 - index); [lia |].
      apply Z.mod_unique with (-1); [left; lia | lia]. }
    rewrite shl_undefined by exact Hc. reflexivity.
Qed.

Lemma zero_high_bits_portable_witness :
  (1 <= 8 <= 64 ->
   zero_high_bits (fun _ _ _ => Undefined) ARCH_OTHER 1000 8 = Ok (1000 mod 2 ^ 8)) /\
  (8 = 0 \/ 64 < 8 ->
   zero_high_bits (fun _ _ _ => Undefined) ARCH_OTHER 1000 8 = Undefined).
Proof. apply (zero_high_bits_portable (fun _ _ _ => Undefined) 1000 8); lia. Defined.

Lemma mask_shifted (bits offset : Z) :
  0 <= bits < 64 -> 0 <= offset < 64 ->
  mask bits offset = Ok (to_uqword (Z.shiftl (Z.ones bits) offset)).
Proof.
  intros Hb Ho. unfold mask, lnot_int. rewrite shl_one by exact Hb.
  cbn [mbind result_bind].
  assert (Hp : 0 < 2 ^ bits < 2 ^ 64).
  { split; [apply Z.pow_pos_nonneg; lia | apply Z.pow_lt_mono_r; lia]. }
  rewrite (to_uqword_small (2 ^ bits - 1)) by lia.
  replace (2 ^ bits - 1) with (Z.ones bits) by (rewrite Z.ones_equiv; lia).
  destruct (Z.eqb_spec offset 0) as [-> | Hnz]; cbn [Z.eqb negb].
  - rewrite Z.shiftl_0_r. rewrite to_uqword_small; [reflexivity |].
    rewrite Z.ones_equiv. lia.
  - rewrite (proj2 (Z.ltb_ge offset 0)) by lia.
    rewrite shl_defined by exact Ho.
    rewrite Z.shiftl_mul_pow2 by lia. reflexivity.
Qed.

(** X21: [mask(bits, offset)] with a width and an offset below 64 is the
    run of [bits] ones moved up by [offset], cut to the word; with a
    negative offset the macro shifts right by that negative count and the
    call is undefined, as it is for the width 64. *)
Theorem mask_offsets (bits offset : Z) :
  0 <= bits -> - 2 ^ 63 <= offset < 2 ^ 63 ->
  (bits < 64 -> 0 <= offset < 64 ->
   mask bits offset = Ok (((2 ^ bits - 1) * 2 ^ offset) mod 2 ^ 64)) /\
  (offset < 0 -> mask bits offset = Undefined) /\
  (64 <= bits -> mask bits offset = Undefined).
Proof.
  intros Hb Ho. split; [| split].
  - intros Hlt Hr. rewrite mask_shifted by lia.
    rewrite Z.shiftl_mul_pow2, Z.ones_equiv by lia. reflexivity.
  - intros Hneg. unfold mask, lnot_int.
    destruct (Z.eqb_spec offset 0) as [E | _]; [lia |]. cbn [Z.eqb negb].
    rewrite (proj2 (Z.ltb_lt offset 0) Hneg).
    unfold shl at 1.
    destruct ((0 <=? bits) && (bits <? 64)); cbn [mbind result_bind];
      [| reflexivity].
    unfold shr. rewrite (proj2 (Z.leb_gt 0 offset) Hneg). reflexivity.
  - intros Hge. unfold mask. rewrite shl_undefined by exact Hge.
    destruct (negb (lnot_int offset =? 0)); [reflexivity |].
    destruct (offset <? 0); reflexivity.
Qed.

Lemma mask_offsets_witness :
  (4 < 64 -> 0 <= 8 < 64 ->
   mask 4 8 = Ok (((2 ^ 4 - 1) * 2 ^ 8) mod 2 ^ 64)) /\
  (8 < 0 -> mask 4 8 = Undefined) /\
  (64 <= 4 -> mask 4 8 = Undefined).
Proof. apply (mask_offsets 4 8); lia. Defined.

(** X22: [filter(value, bits, offset)] keeps the field of [bits] bits
    that starts at bit [offset] in place, when the field lies inside the
    word, and clears the rest. *)
Theorem filter_field (value bits offset : Z) :
  0 <= value < 2 ^ 64 -> 0 <= bits < 64 -> 0 <= offset ->
  offset + bits <= 64 -> offset < 64 ->
  filter value bits offset =
  Ok ((value / 2 ^ offset) mod 2 ^ bits * 2 ^ offset).
Proof.
  intros Hv Hb Ho Hf Ho64. unfold filter. rewrite mask_shifted by lia.
  cbn [mbind result_bind]. f_equal.
  apply Z.bits_inj'. intros n Hn.
  rewrite Z.land_spec, testbit_to_uqword, Z.shiftl_spec by lia.
  rewrite Z.mul_pow2_bits by lia.
  destruct (Z_lt_le_dec n offset) as [Hlo | Hhi].
  - rewrite !(Z.testbit_neg_r _ (n - offset)) by lia.
    rewrite !andb_false_r. reflexivity.
  - rewrite Z.testbit_ones_nonneg by lia.
    destruct (Z.ltb_spec (n - offset) bits) as [Hin | Hout].
    + rewrite Z.mod_pow2_bits_low by lia.
      rewrite <- Z.shiftr_div_pow2, Z.shiftr_spec by lia.
      rewrite (proj2 (Z.ltb_lt n 64)) by lia.
      replace (n - offset + offset) with n by lia.
      cbn [andb]. apply andb_true_r.
    + rewrite Z.mod_pow2_bits_high by lia.
      rewrite !andb_false_r. reflexivity.
Qed.

Lemma filter_field_witness :
  filter 43981 8 4 = Ok ((43981 / 2 ^ 4) mod 2 ^ 8 * 2 ^ 4).
Proof. apply (filter_field 43981 8 4); lia. Defined.

(** ** Significant bits of a bit string: [sigbitsn] *)

Lemma sigbitsn_loop_unfold (arr : list Z) (i acc : Z) :
  sigbitsn_loop arr i acc =
  if 0 <=? i
  then w ← load arr i; sigbitsn_loop arr (i - 1) (to_uqword (acc + sigbits w))
  else Ok acc.
Proof.
  rewrite sigbitsn_loop_equation_1.
  destruct (inspect _) as [c e].
  destruct c; cbn;
    [destruct (load arr i); cbn; rewrite e; reflexivity
    | rewrite e; reflexivity].
Qed.

Lemma sigbits_sum_app (l1 l2 : list Z) :
  sigbits_sum (l1 ++ l2) = sigbits_sum l1 + sigbits_sum l2.
Proof.
  induction l1 as [| w l1 IH]; cbn [app sigbits_sum foldr]; [reflexivity |].
  fold (sigbits_sum (l1 ++ l2)). fold (sigbits_sum l1). lia.
Qed.

Lemma sigbits_sum_bounds (ws : list Z) :
  Forall (fun w => 0 <= w < 2 ^ 64) ws ->
  Z.of_nat (length ws) <= sigbits_sum ws <= 64 * Z.of_nat (length ws).
Proof.
  induction 1 as [| w ws Hw _ IH]; [cbn; lia |].
  cbn [sigbits_sum foldr length]. fold (sigbits_sum ws).
  pose proof (sigbits_range w Hw). lia.
Qed.

Lemma sigbitsn_loop_spec (arr : list Z) (n : nat) (acc : Z) :
  Forall (fun w => 0 <= w < 2 ^ 64) arr ->
  (n <= length arr)%nat -> 0 <= acc -> acc + 64 * Z.of_nat n < 2 ^ 64 ->
  sigbitsn_loop arr (Z.of_nat n - 1) acc = Ok (acc + sigbits_sum (take n arr)).
Proof.
  intros Hall. revert acc. induction n as [| n IH]; intros acc Hn Ha Hb;
    rewrite sigbitsn_loop_unfold.
  - cbn. rewrite Z.add_0_r. reflexivity.
  - rewrite (proj2 (Z.leb_le 0 (Z.of_nat (S n) - 1))) by lia.
    replace (Z.of_nat (S n) - 1) with (Z.of_nat n) by lia.
    destruct (load_defined arr (Z.of_nat n) ltac:(lia)) as (w & Hw & ->).
    cbn [mbind result_bind]. rewrite Nat2Z.id in Hw.
    assert (Hr : 0 <= w < 2 ^ 64).
    { rewrite Forall_forall in Hall. apply Hall.
      apply list_elem_of_lookup. exists n. exact Hw. }
    pose proof (sigbits_range w Hr) as Hs.
    rewrite to_uqword_small by lia.
    rewrite IH by lia.
    rewrite (take_S_r arr n w Hw), sigbits_sum_app.
    cbn [sigbits_sum foldr]. f_equal. lia.
Qed.

(** X23: [sigbitsn] adds up the significant-bit counts of all the words
    of the bit string, from the last word down to the first; as every
    word counts at least 1, the result is at least the number of words,
    also for a string of zero words only, and 0 for the empty string. *)
Theorem sigbitsn_sum (arr : list Z) (words : Z) :
  Z.of_nat (length arr) = words -> words < 2 ^ 57 ->
  Forall (fun w => 0 <= w < 2 ^ 64) arr ->
  sigbitsn arr words = Ok (sigbits_sum arr) /\
  words <= sigbits_sum arr <= 64 * words.
Proof.
  intros Hlen Hw Hall. split.
  - unfold sigbitsn.
    assert (E : to_qword (to_uqword (words - 1)) = words - 1).
    { destruct (Z.eq_dec words 0) as [-> | Hnz]; [reflexivity |].
      rewrite to_uqword_small, to_qword_small; lia. }
    rewrite E, <- Hlen.
    rewrite (sigbitsn_loop_spec arr (length arr) 0 Hall) by lia.
    rewrite firstn_all. reflexivity.
  - rewrite <- Hlen. apply sigbits_sum_bounds. exact Hall.
Qed.

Lemma sigbitsn_sum_witness :
  sigbitsn [0; 0; 5] 3 = Ok (sigbits_sum [0; 0; 5]) /\
  3 <= sigbits_sum [0; 0; 5] <= 64 * 3.
Proof.
  apply (sigbitsn_sum [0; 0; 5] 3); [reflexivity | lia |].
  repeat constructor; lia.
Defined.

(** ** Doubling, halving, interpolation *)

(** X24: halving after doubling loses the top bit: [hlv(dbl(x))] is
    [x mod 2^63], so [x] itself exactly below [2^63]; doubling after
    halving clears the low bit. *)
Theorem hlv_dbl (x : Z) :
  0 <= x < 2 ^ 64 ->
  exists d h : Z,
    dbl x = Ok d /\ hlv d = Ok (x mod 2 ^ 63) /\
    hlv x = Ok h /\ dbl h = Ok (x - x mod 2).
Proof.
  intros Hx. unfold dbl, hlv.
  rewrite !shl_defined, !shr_defined by lia.
  change (2 ^ 1) with 2.
  eexists _, _. split; [reflexivity |]. split; [| split; [reflexivity |]].
  - rewrite shr_defined by lia. f_equal. change (2 ^ 1) with 2.
    unfold to_uqword. change (2 ^ 64) with (2 ^ 63 * 2).
    rewrite Z.mul_mod_distr_r by lia. apply Z.div_mul. lia.
  - pose proof (Z.div_mod x 2 ltac:(lia)).
    pose proof (Z.mod_pos_bound x 2 ltac:(lia)).
    rewrite shl_defined by lia. change (2 ^ 1) with 2.
    rewrite to_uqword_small by lia. f_equal. lia.
Qed.

Lemma hlv_dbl_witness :
  exists d h : Z,
    dbl 11 = Ok d /\ hlv d = Ok (11 mod 2 ^ 63) /\
    hlv 11 = Ok h /\ dbl h = Ok (11 - 11 mod 2).
Proof. apply (hlv_dbl 11). lia. Defined.

(** X25: [lerp] returns the lower bound at 0 and the upper bound at 1,
    also when the upper bound is the smaller one, and is the linear
    formula whenever that stays inside the word. *)
Theorem lerp_endpoints (lower upper x : Z) :
  0 <= lower < 2 ^ 64 -> 0 <= upper < 2 ^ 64 ->
  lerp lower upper 0 = lower /\ lerp lower upper 1 = upper /\
  (lower <= upper -> 0 <= x -> lower + x * (upper - lower) < 2 ^ 64 ->
   lerp lower upper x = lower + x * (upper - lower)).
Proof.
  intros Hl Hu. unfold lerp. split; [| split].
  - rewrite Z.mul_0_l. change (to_uqword 0) with 0.
    rewrite Z.add_0_r. apply to_uqword_small. exact Hl.
  - rewrite Z.mul_1_l. unfold to_uqword.
    rewrite Z.mod_mod, Z.add_mod_idemp_r by lia.
    replace (lower + (upper - lower)) with upper by lia.
    apply Z.mod_small. exact Hu.
  - intros Hle Hx Hb.
    assert (0 <= x * (upper - lower)) by (apply Z.mul_nonneg_nonneg; lia).
    rewrite (to_uqword_small (upper - lower)) by lia.
    rewrite (to_uqword_small (x * (upper - lower))) by lia.
    apply to_uqword_small. lia.
Qed.

Lemma lerp_endpoints_witness :
  lerp 9 4 0 = 9 /\ lerp 9 4 1 = 4 /\
  (9 <= 4 -> 0 <= 3 -> 9 + 3 * (4 - 9) < 2 ^ 64 ->
   lerp 9 4 3 = 9 + 3 * (4 - 9)).
Proof. apply (lerp_endpoints 9 4 3); lia. Defined.

(** ** More on [bin_index] *)

Lemma address_parts (p s : Z) :
  0 <= s < 2 -> path (2 * p + s) = p /\ side (2 * p + s) = s.
Proof.
  intros Hs. rewrite path_spec, side_spec. split.
  - symmetry. apply Z.div_unique with s; lia.
  - symmetry. apply Z.mod_unique with p; [left |]; lia.
Qed.

(** X26: the offsets that [bin_index] produces are exactly the words
    below [2^64 - 2]: every 64-bit address has an offset in that range,
    and every offset in that range is the offset of some address. *)
Theorem bin_index_image :
  (forall a : Z, 0 <= a < 2 ^ 64 ->
     exists o : Z, bin_index a = Ok o /\ 0 <= o < 2 ^ 64 - 2) /\
  (forall o : Z, 0 <= o < 2 ^ 64 - 2 ->
     exists a : Z, 0 <= a < 2 ^ 64 /\ bin_index a = Ok o).
Proof.
  split.
  - intros a Ha. destruct (bin_index_level a Ha) as (o & E & B).
    exists o. split; [exact E |].
    pose proof (address_split a) as Hsplit. pose proof (side_range a) as Hs.
    assert (Hp : 0 <= path a < 2 ^ 63) by lia.
    assert (Hd : 0 <= depth a <= 62).
    { unfold depth. rewrite log2i_spec by lia.
      split; [apply Z.log2_nonneg |].
      destruct (Z.eq_dec (path a) 0) as [-> | Hnz]; [cbn; lia |].
      assert (Z.log2 (path a) < 63) by (apply Z.log2_lt_pow2; lia). lia. }
    assert (0 < 2 ^ depth a) by (apply Z.pow_pos_nonneg; lia).
    assert (2 ^ depth a <= 2 ^ 62) by (apply Z.pow_le_mono_r; lia).
    lia.
  - intros o Ho.
    destruct (Z_lt_le_dec o 2) as [Hsmall | Hbig].
    + exists o. split; [lia |].
      assert (C : o = 0 \/ o = 1) by lia. destruct C as [-> | ->]; reflexivity.
    + set (d := Z.log2 (o + 2) - 1).
      assert (Hl : 2 <= Z.log2 (o + 2) < 64).
      { split; [apply Z.log2_le_pow2; lia | apply Z.log2_lt_pow2; lia]. }
      assert (Hh : 2 * 2 ^ d <= o + 2 < 4 * 2 ^ d).
      { pose proof (Z.log2_spec (o + 2) ltac:(lia)) as Hspec.
        unfold d. replace (Z.log2 (o + 2)) with (Z.succ (Z.log2 (o + 2) - 1)) in Hspec by lia.
        rewrite !Z.pow_succ_r in Hspec by lia. lia. }
      assert (H2 : 2 <= 2 ^ d).
      { change 2 with (2 ^ 1) at 1. apply Z.pow_le_mono_r; unfold d; lia. }
      assert (H62 : 2 ^ d <= 2 ^ 62) by (apply Z.pow_le_mono_r; unfold d; lia).
      assert (Hfind : exists p s : Z,
                 0 <= s < 2 /\ 2 ^ d <= p < 2 * 2 ^ d /\
                 2 * 2 ^ d - 2 + p - s * 2 ^ d = o).
      { destruct (Z_lt_le_dec (o + 2) (3 * 2 ^ d)).
        - exists (o + 2 - 2 ^ d), 1. lia.
        - exists (o + 2 - 2 * 2 ^ d), 0. lia. }
      destruct Hfind as (p & s & Hs & Hp & Eo).
      exists (2 * p + s). split; [lia |].
      rewrite bin_index_spec by lia.
      destruct (address_parts p s Hs) as [-> ->].
      destruct (Z.leb_spec p 1); [lia |].
      rewrite (Z.log2_unique p d); [rewrite Eo; reflexivity | unfold d; lia |].
      rewrite Z.pow_succ_r by (unfold d; lia). lia.
Qed.

Lemma bin_index_image_witness :
  (exists o : Z, bin_index 12 = Ok o /\ 0 <= o < 2 ^ 64 - 2) /\
  (exists a : Z, 0 <= a < 2 ^ 64 /\ bin_index a = Ok 1000).
Proof.
  split; [apply (proj1 bin_index_image 12) | apply (proj2 bin_index_image 1000)];
    lia.
Defined.

(** X27: inside one level of the tree, from depth 1 on, the offsets of
    the side 1 come before those of the side 0, and on one side the
    offsets follow the order of the paths. *)
Theorem bin_index_level_order (a1 a2 : Z) :
  0 <= a1 < 2 ^ 64 -> 0 <= a2 < 2 ^ 64 ->
  2 <= path a1 -> 2 <= path a2 -> depth a1 = depth a2 ->
  exists o1 o2 : Z,
    bin_index a1 = Ok o1 /\ bin_index a2 = Ok o2 /\
    (side a1 = 1 -> side a2 = 0 -> o1 < o2) /\
    (side a1 = side a2 -> path a1 < path a2 -> o1 < o2).
Proof.
  intros H1 H2 P1 P2 Hd.
  rewrite !bin_index_spec by assumption.
  destruct (Z.leb_spec (path a1) 1); [lia |].
  destruct (Z.leb_spec (path a2) 1); [lia |].
  eexists _, _. split; [reflexivity |]. split; [reflexivity |].
  pose proof (address_split a1). pose proof (address_split a2).
  pose proof (side_range a1). pose proof (side_range a2).
  unfold depth in Hd. rewrite !log2i_spec in Hd by lia.
  rewrite Hd.
  assert (Hh1 : 2 ^ Z.log2 (path a1) <= path a1 < 2 * 2 ^ Z.log2 (path a1)).
  { rewrite <- Z.pow_succ_r by apply Z.log2_nonneg. apply Z.log2_spec. lia. }
  assert (Hh2 : 2 ^ Z.log2 (path a2) <= path a2 < 2 * 2 ^ Z.log2 (path a2)).
  { rewrite <- Z.pow_succ_r by apply Z.log2_nonneg. apply Z.log2_spec. lia. }
  rewrite Hd in Hh1.
  split.
  - intros -> ->. lia.
  - intros -> Hlt. lia.
Qed.

Lemma bin_index_level_order_witness :
  exists o1 o2 : Z,
    bin_index 9 = Ok o1 /\ bin_index 12 = Ok o2 /\
    (side 9 = 1 -> side 12 = 0 -> o1 < o2) /\
    (side 9 = side 12 -> path 9 < path 12 -> o1 < o2).
Proof.
  apply (bin_index_level_order 9 12); try lia.
  - change (path 9) with 4. lia.
  - change (path 12) with 6. lia.
  - reflexivity.
Defined.

(** ** [umodq] and [square_wave] *)

(** X28: for every divisor from 1 up to [2^63 - 1], [umodq(a, b)] is the
    remainder of [a] by [b]; for every divisor from [2^63] on it shifts
    by 64 and is undefined. *)
Theorem umodq_remainder (a b : Z) :
  0 <= a < 2 ^ 64 ->
  (0 < b < 2 ^ 63 -> umodq a b = Ok (a mod b)) /\
  (2 ^ 63 <= b < 2 ^ 64 -> umodq a b = Undefined).
Proof.
  intros Ha. split; intros Hb.
  - apply umodq_below_2p63; assumption.
  - apply umodq_undefined_high; assumption.
Qed.

Lemma umodq_remainder_witness :
  (0 < 7 < 2 ^ 63 -> umodq 100 7 = Ok (100 mod 7)) /\
  (2 ^ 63 <= 7 < 2 ^ 64 -> umodq 100 7 = Undefined).
Proof. apply (umodq_remainder 100 7). lia. Defined.

Lemma square_wave_spec (period time : Z) :
  0 < period < 2 ^ 63 -> 0 <= time < 2 ^ 64 ->
  square_wave period time =
  Ok (if (period - 1) / 2 <? time mod period then 2 ^ 31 else 0).
Proof.
  intros Hp Ht. unfold square_wave.
  rewrite umodq_below_2p63 by lia. cbn [mbind result_bind].
  pose proof (Z.mod_pos_bound time period ltac:(lia)) as Hr.
  rewrite (to_qword_small (time mod period)) by lia.
  rewrite (to_uqword_small (period - 1)), to_qword_small by lia.
  unfold sar. change ((0 <=? 1) && (1 <? 64)) with true.
  cbn [mbind result_bind].
  rewrite Z.shiftr_div_pow2 by lia. change (2 ^ 1) with 2.
  assert (Hh : 0 <= (period - 1) / 2 < 2 ^ 63).
  { split; [apply Z.div_pos; lia |].
    apply Z.div_lt_upper_bound; lia. }
  unfold sub_qword.
  rewrite (proj2 (Z.leb_le _ _)), (proj2 (Z.ltb_lt _ _)) by lia.
  cbn [andb mbind result_bind].
  destruct (Z.ltb_spec ((period - 1) / 2) (time mod period)) as [Hhi | Hlo].
  - rewrite (proj2 (Z.ltb_lt 0 _)) by lia. reflexivity.
  - rewrite (proj2 (Z.ltb_ge 0 _)) by lia. reflexivity.
Qed.

(** X29: for a period from 1 up to [2^63 - 1], [square_wave] is 0 while
    the time within the period, [time mod period], is at most
    [(period - 1) / 2], and [2^31] after that. *)
Theorem square_wave_halves (period time : Z) :
  0 < period < 2 ^ 63 -> 0 <= time < 2 ^ 64 ->
  (time mod period <= (period - 1) / 2 -> square_wave period time = Ok 0) /\
  ((period - 1) / 2 < time mod period -> square_wave period time = Ok (2 ^ 31)).
Proof.
  intros Hp Ht. rewrite square_wave_spec by assumption.
  split; intros H.
  - rewrite (proj2 (Z.ltb_ge _ _)) by exact H. reflexivity.
  - rewrite (proj2 (Z.ltb_lt _ _)) by exact H. reflexivity.
Qed.

Lemma square_wave_halves_witness :
  (13 mod 10 <= (10 - 1) / 2 -> square_wave 10 13 = Ok 0) /\
  ((10 - 1) / 2 < 13 mod 10 -> square_wave 10 13 = Ok (2 ^ 31)).
Proof. apply (square_wave_halves 10 13); lia. Defined.

(** X30: [square_wave] is periodic in the time: one period later, while
    the time stays a word, it has the same value. *)
Theorem square_wave_periodic (period time : Z) :
  0 < period < 2 ^ 63 -> 0 <= time -> time + period < 2 ^ 64 ->
  square_wave period (time + period) = square_wave period time.
Proof.
  intros Hp Ht Hb. rewrite !square_wave_spec by lia.
  replace (time + period) with (time + 1 * period) by lia.
  rewrite Z.mod_add by lia. reflexivity.
Qed.

Lemma square_wave_periodic_witness :
  square_wave 10 (13 + 10) = square_wave 10 13.
Proof. apply (square_wave_periodic 10 13); lia. Defined.
